(** * pingo: plugin supervisor and child runtime

    A shallow embedding of the Go package [pingo] (files [utils.go],
    [errors.go], [server.go] and [plugin.go]) together with the properties
    of its line framing, its error parser, the child's bind and
    authentication logic and the supervisor's event loop.

    Conventions of the embedding:
    - a Go [string] is a sequence of bytes: [String.string];
    - a Go [int] that indexes a string or a slice is a [Z], so that the
      code's tests such as [end < 0] and its slice bounds read as written;
    - an operation that panics at run time (slice out of range, index out of
      range, [make] with a negative length) returns [None];
    - code that talks to the outside (listen, dial, random numbers) takes the
      answer of the outside as an argument. *)

From Stdlib Require Import ZArith Strings.String Strings.Ascii Lia Bool.
From Stdlib Require Import Numbers.DecimalString.
From stdpp Require Import base list strings gmap.

Local Open Scope Z_scope.

(** ** Go string primitives *)

Module GoString.

(** [len(s)] *)
Definition len (s : string) : Z := Z.of_nat (String.length s).

Fixpoint take (n : nat) (s : string) : string :=
  match n, s with
  | S n', String c t => String c (take n' t)
  | _, _ => EmptyString
  end.

Fixpoint drop (n : nat) (s : string) : string :=
  match n, s with
  | S n', String _ t => drop n' t
  | _, _ => s
  end.

(** [s[lo:hi]]: panics unless [0 <= lo <= hi <= len(s)]. *)
Definition slice (s : string) (lo hi : Z) : option string :=
  if (0 <=? lo) && (lo <=? hi) && (hi <=? len s)
  then Some (take (Z.to_nat (hi - lo)) (drop (Z.to_nat lo) s))
  else None.

(** [s[lo:]] *)
Definition slice_from (s : string) (lo : Z) : option string :=
  slice s lo (len s).

(** [strings.HasPrefix(s, p)] *)
Definition HasPrefix (s p : string) : bool := String.prefix p s.

Fixpoint index_byte (c : ascii) (s : string) : option nat :=
  match s with
  | EmptyString => None
  | String d t => if Ascii.eqb d c then Some O else S <$> index_byte c t
  end.

(** [strings.IndexByte(s, c)]: index of the first [c], or [-1]. *)
Definition IndexByte (s : string) (c : ascii) : Z :=
  match index_byte c s with
  | Some i => Z.of_nat i
  | None => -1
  end.

Fixpoint index_sub (sep s : string) : option nat :=
  if String.prefix sep s then Some O
  else match s with
       | EmptyString => None
       | String _ t => S <$> index_sub sep t
       end.

(** [strings.Index(s, sep)]: index of the first occurrence of [sep], or [-1]. *)
Definition Index (s sep : string) : Z :=
  match index_sub sep s with
  | Some i => Z.of_nat i
  | None => -1
  end.

(** The loop of [strings.genSplit] for a non-empty separator: cut [s] at
    the leftmost occurrences of [sep], at most [cuts] times. *)
Fixpoint genSplit (fuel cuts : nat) (s sep : string) : list string :=
  match fuel, cuts with
  | S fuel', S cuts' =>
      match index_sub sep s with
      | Some m => take m s :: genSplit fuel' cuts' (drop (m + String.length sep) s) sep
      | None => [s]
      end
  | _, _ => [s]
  end.

(** [strings.SplitN(s, sep, n)] for [n > 0] and a non-empty [sep]: at most
    [n] pieces, the last one holding the unsplit rest. *)
Definition SplitN (s sep : string) (n : nat) : list string :=
  genSplit (String.length s) (Nat.pred n) s sep.

(** [strings.Split(s, sep)] for a non-empty [sep]: all the pieces. *)
Definition Split (s sep : string) : list string :=
  genSplit (String.length s) (String.length s) s sep.

(** [fmt.Sprintf("%d", n)] *)
Definition itoa (n : Z) : string := NilZero.string_of_int (Z.to_int n).

End GoString.

(** ** utils.go: line framing and random identifiers *)

Module Utils.
Import GoString.

(** [type meta string]: the prefix of the status lines. *)
Definition meta := string.

(** [meta.output]: the line printed for a key and a value (without the
    final newline, which the scanner of the reader removes). *)
Definition output (h : meta) (key val : string) : string :=
  h +:+ ": " +:+ key +:+ ": " +:+ val.

(** [meta.parse]. [None] is a run-time panic of a slice expression. *)
Definition parse (h : meta) (line : string) : option (string * string) :=
  if String.eqb line "" then Some ("", "")
  else if len line <? len h then Some ("", "")
  else
    head ← slice line 0 (len h);
    if negb (String.eqb head h) then Some ("", "")
    else
      line ← slice_from line (len h + 2);
      let end_ := IndexByte line ":" in
      if end_ <? 0 then Some ("", "")
      else
        key ← slice line 0 end_;
        val ← slice_from line (end_ + 2);
        Some (key, val).

Definition _letters : string :=
  "abcdefghijklmnopqrstuvwxyzABCDEFGHIJKLMNOPQRSTUVWXYZ0123456789_-".

(** The pseudo-random generator of [math/rand] is an input of the model:
    the sequence of its raw draws, and the position of the next one. *)
Definition Source := nat -> Z.

(** [rand.Intn(n)] *)
Definition Intn (src : Source) (pos : nat) (n : Z) : Z * nat :=
  (src pos mod n, S pos).

(** [randstr(n)]: [n] letters, one draw each. *)
Fixpoint randstr (n : nat) (src : Source) (pos : nat) : string * nat :=
  match n with
  | O => (EmptyString, pos)
  | S n' =>
      let l := len _letters in
      let '(i, pos) := Intn src pos l in
      let c := default "a"%char (String.get (Z.to_nat i) _letters) in
      let '(rest, pos) := randstr n' src pos in
      (String c rest, pos)
  end.

End Utils.

(** ** errors.go: error values and the parser of error lines *)

Module Errors.
Import GoString.

Definition errorCodeConnFailed : string := "err-connection-failed".
Definition errorCodeHttpServe : string := "err-http-serve".

(** Go's [error] values. The four named error types of the package are
    conversions of an underlying error; errors coming from the operating
    system are kept by their text, [ExitError] being [*exec.ExitError]. *)
Inductive error : Type :=
| New (text : string)
| ErrConnectionFailed (e : error)
| ErrHttpServe (e : error)
| ErrInvalidMessage (e : error)
| ErrRegistrationTimeout (e : error)
| ExitError (text : string)
| SysError (text : string).

#[global] Instance error_eq_dec : EqDecision error.
Proof. solve_decision. Defined.

(** [parseError]: the outer [None] is a panic, the inner one is [nil]. *)
Definition parseError (line : string) : option (option error) :=
  let parts := SplitN line ": " 2 in
  p0 ← parts !! 0%nat;
  if String.eqb p0 "" then Some None
  else
    p1 ← parts !! 1%nat;
    let err := New p1 in
    if String.eqb p0 errorCodeConnFailed then Some (Some (ErrConnectionFailed err))
    else if String.eqb p0 errorCodeHttpServe then Some (Some (ErrHttpServe err))
    else Some (Some err).

(** The text of an error, [err.Error()]. *)
Fixpoint Error (e : error) : string :=
  match e with
  | New t | ExitError t | SysError t => t
  | ErrConnectionFailed e | ErrHttpServe e
  | ErrInvalidMessage e | ErrRegistrationTimeout e => Error e
  end.

End Errors.

(** ** server.go: the child runtime *)

Module Server.
Import GoString Utils Errors.

Definition LF : ascii := "010"%char.
Definition CR : ascii := "013"%char.

(** [io.EOF], what [ReadByte] answers at the end of the stream. *)
Definition io_EOF : error := SysError "EOF".

(** [bufio.MaxScanTokenSize] *)
Definition MaxScanTokenSize : Z := 64 * 1024.

Record config := mkConfig {
  proto : string;
  addr : string;
  prefix : string;
  unixdir : string
}.

Record rpcServer := mkRpcServer {
  secret : string;
  objs : list string;
  conf : config;
  running : bool
}.

(** [rpcServer.register], on the name of the type of the object. *)
Definition register (r : rpcServer) (name : string) : rpcServer :=
  mkRpcServer (secret r) (objs r ++ [name]) (conf r) (running r).

(** [newRpcServer]: the secret is drawn from the random source. *)
Definition newRpcServer (src : Source) (pos : nat) (c : config) : rpcServer * nat :=
  let '(s, pos) := randstr 64 src pos in
  (register (mkRpcServer s [] c false) "PingoRpc", pos).

(** [strings.Join(elems, sep)] *)
Fixpoint Join (elems : list string) (sep : string) : string :=
  match elems with
  | [] => ""
  | [e] => e
  | e :: rest => e +:+ sep +:+ Join rest sep
  end.

(** *** Authentication of a connection *)

(** The loop of [readHeaders] over the bytes still to come on the
    connection: the bytes up to and including the first two consecutive
    newlines, and the bytes after them; the read error if the stream ends
    before. *)
Fixpoint readHeaders_loop (input buf : string) (headerEnd : bool)
  : error + (string * string) :=
  match input with
  | EmptyString => inl io_EOF
  | String b rest =>
      let buf := buf +:+ String b EmptyString in
      if Ascii.eqb b LF then
        if headerEnd then inr (buf, rest)
        else readHeaders_loop rest buf true
      else readHeaders_loop rest buf false
  end.

Definition readHeaders (input : string) : error + (string * string) :=
  readHeaders_loop input "" false.

(** [dropCR] of [bufio]: a line loses one final carriage return. *)
Fixpoint dropCR (data : string) : string :=
  match data with
  | EmptyString => EmptyString
  | String c EmptyString => if Ascii.eqb c CR then EmptyString else data
  | String c rest => String c (dropCR rest)
  end.

(** The tokens of a [bufio.Scanner] with [ScanLines] over [data]: one per
    line, the last line needing no newline; the scan stops without a token
    at a line that does not fit the buffer of the scanner. [cur] holds the
    bytes of the line being read. *)
Fixpoint scan (data cur : string) : list string :=
  match data with
  | EmptyString =>
      if String.eqb cur "" then []
      else if len cur <? MaxScanTokenSize then [dropCR cur] else []
  | String b rest =>
      if Ascii.eqb b LF then
        if len cur <? MaxScanTokenSize then dropCR cur :: scan rest "" else []
      else scan rest (cur +:+ String b EmptyString)
  end.

(** The loop of [parseHeaders] over the scanned lines; [None] is the panic
    of [parts[1]] on a line without separator. *)
Fixpoint parseHeaders_loop (lines : list string) (m : gmap string string)
  : option (gmap string string) :=
  match lines with
  | [] => Some m
  | line :: lines =>
      let parts := SplitN line ": " 2 in
      p0 ← parts !! 0%nat;
      if String.eqb p0 "" then parseHeaders_loop lines m
      else
        p1 ← parts !! 1%nat;
        parseHeaders_loop lines (<[p0 := p1]> m)
  end.

(** [parseHeaders]: the map filled, with the bytes left on the connection,
    or the read error. *)
Definition parseHeaders (input : string) (m : gmap string string)
  : option (error + (gmap string string * string)) :=
  match readHeaders input with
  | inl err => Some (inl err)
  | inr (headers, rest) =>
      m ← parseHeaders_loop (scan headers "") m;
      Some (inr (m, rest))
  end.

(** [rpcServer.authConn] *)
Definition authConn (r : rpcServer) (token : string) : bool :=
  if negb (String.eqb token "") && String.eqb token (secret r) then true
  else false.

(** What [serveConn] does with a connection. *)
Inductive action : Type :=
| Output (line : string)
| ServeConn (stream : string)
| Close.

(** [m[key]] on a Go map of strings: the empty string when absent. *)
Definition map_get (m : gmap string string) (key : string) : string :=
  default "" (m !! key).

(** [rpcServer.serveConn] on a connection that delivers [input]: the
    actions taken, in order, and whether the goroutine panicked (the
    deferred [Close] runs in both cases). *)
Definition serveConn (r : rpcServer) (input : string) (h : meta)
  : list action * bool :=
  match parseHeaders input ∅ with
  | None => ([Close], true)
  | Some (inl err) => ([Output (output h "error" (Error err)); Close], false)
  | Some (inr (headers, rest)) =>
      if authConn r (map_get headers "Auth-Token")
      then ([ServeConn rest; Close], false)
      else ([Close], false)
  end.

Definition dispatched (res : list action * bool) : bool :=
  existsb (fun a => match a with ServeConn _ => true | _ => false end) (fst res).

Definition closed (res : list action * bool) : bool :=
  existsb (fun a => match a with Close => true | _ => false end) (fst res).

(** *** Binding the listener *)

(** Go's [int] on the 64-bit targets: the result of an addition wraps. *)
Definition wrap_int (z : Z) : Z := (z + 2 ^ 63) mod 2 ^ 64 - 2 ^ 63.

Section Bind.
(** [path.Join] and [filepath.FromSlash] of the Go library. *)
Variable pathJoin : string -> string -> string.
Variable fromSlash : string -> string.
(** The random source, and the answer of [net.Listen] to the [i]-th
    attempt of [run] on a network and an address: [None] is success. *)
Variable src : Source.
Variable listen : nat -> string -> string -> option error.

(** [type connection interface { addr() string; retries() int }]; the
    receiver is a pointer, so [addr] gives the new value of the receiver,
    and the position in the random source. *)
Class connection (T : Type) := {
  conn_addr : T -> nat -> string * T * nat;
  conn_retries : T -> Z
}.

Definition tcp := Z.

(** [tcp.addr], on the pointer receiver *)
Definition tcp_addr (t : tcp) : string * tcp :=
  let t := if t <? 1024 then 1023 else t in
  let t := wrap_int (t + 1) in
  ("127.0.0.1:" +:+ itoa t, t).

Definition tcp_retries (t : tcp) : Z := 500.

Definition unix := string.

(** [unix.addr], on the pointer receiver *)
Definition unix_addr (u : unix) (pos : nat) : string * nat :=
  let '(name, pos) := randstr 8 src pos in
  let name :=
    if negb (String.eqb u "") then fromSlash (pathJoin u name) else name in
  (name, pos).

Definition unix_retries (u : unix) : Z := 4.

#[local] Instance tcp_connection : connection tcp := {
  conn_addr t pos := let '(a, t) := tcp_addr t in (a, t, pos);
  conn_retries := tcp_retries
}.

#[local] Instance unix_connection : connection unix := {
  conn_addr u pos := let '(a, pos) := unix_addr u pos in (a, u, pos);
  conn_retries := unix_retries
}.

(** The retry loop of [run], with [n] iterations left at attempt [i]:
    the address stored in [r.conf.addr], the last error of [net.Listen],
    the addresses tried so far and the position in the random source. *)
Fixpoint bind_loop {T} `{connection T} (n i : nat) (conn : T) (pos : nat)
    (network addr : string) (err : option error) (tried : list string)
  : string * option error * list string * nat :=
  match n with
  | O => (addr, err, tried, pos)
  | S n' =>
      let '(a, conn, pos) := conn_addr conn pos in
      match listen i network a with
      | None => (a, None, (tried ++ [a]), pos)
      | Some e => bind_loop n' (S i) conn pos network a (Some e) (tried ++ [a])
      end
  end.

(** What [run] has done when it returns or enters its accept loop. *)
Record started := mkStarted {
  out : list string;        (* the status lines printed *)
  attempts : list string;   (* the addresses given to [net.Listen] *)
  server : rpcServer;
  failure : option error    (* the error returned; [None]: accepting *)
}.

Definition set_conf (r : rpcServer) (network a : string) : rpcServer :=
  mkRpcServer (secret r) (objs r)
    (mkConfig network a (prefix (conf r)) (unixdir (conf r))) true.

(** [rpcServer.run], up to the accept loop. *)
Definition run (r : rpcServer) (pos : nat) : started :=
  let h : meta := prefix (conf r) in
  let out0 := [output h "objects" (Join (objs r) ", ")] in
  let network := if String.eqb (proto (conf r)) "tcp" then "tcp" else "unix" in
  let '(a, err, tried, _, retries) :=
    if String.eqb (proto (conf r)) "tcp"
    then (bind_loop (Z.to_nat (conn_retries (0 : tcp))) 0 (0 : tcp) pos
            network (addr (conf r)) None [], conn_retries (0 : tcp))
    else (bind_loop (Z.to_nat (conn_retries ("" : unix))) 0 ("" : unix) pos
            network (addr (conf r)) None [], conn_retries ("" : unix)) in
  let r := set_conf r network a in
  match err with
  | Some e =>
      mkStarted
        (out0 ++ [output h "fatal"
                    (errorCodeConnFailed +:+ ": Could not connect in "
                     +:+ itoa retries +:+ " attemps, using " +:+ network
                     +:+ " protocol")])
        tried r (Some e)
  | None =>
      mkStarted
        (out0 ++ [output h "auth-token" (secret r);
                  output h "ready" ("proto=" +:+ network +:+ " addr=" +:+ a)])
        tried r None
  end.

End Bind.

End Server.

(** ** plugin.go: the supervisor *)

Module Supervisor.
Import GoString Utils Errors.

Definition errInvalidMessage : error :=
  ErrInvalidMessage (New "Invalid ready message").
Definition errRegistrationTimeout : error :=
  ErrRegistrationTimeout (New "Registration timed out").

Definition internalObject : string := "PingoRpc".

Definition LF : ascii := "010"%char.

(** The fields of the handle [Plugin] that the event loop reads. *)
Record Plugin := mkPlugin {
  exe : string;
  params : list string;
  initTimeout : Z;
  exitTimeout : Z;
  meta : Utils.meta
}.

(** A [*waiter], a request [*conn] and a request [*objects] are known by
    the identity of the pointer. *)
Definition waiter := nat.
Bind Scope nat_scope with waiter.

(** The [*rpc.Client] that [dialAuthRpc] returns. *)
Record Client := mkClient {
  network : string;
  address : string
}.

(** The channel of [time.After]: [nil] once defused, else holding its one
    value or already emptied. *)
Inductive timeoutChan : Type := TimerNil | TimerArmed | TimerSpent.

(** The state of the event loop. A channel field that the loop only
    compares with [nil] is a [bool]: [true] for the channel. *)
Record ctrl := mkCtrl {
  objs : list string;
  proto : string;
  addr : string;
  secret : string;
  err : option error;
  connCh : bool;
  objsCh : bool;
  timeoutCh : timeoutChan;
  waitCh : bool;
  linesCh : bool;
  over : option waiter;
  proc : option Z;
  client : option Client
}.

Definition set_objs v c := mkCtrl v (proto c) (addr c) (secret c) (err c) (connCh c) (objsCh c) (timeoutCh c) (waitCh c) (linesCh c) (over c) (proc c) (client c).
Definition set_proto v c := mkCtrl (objs c) v (addr c) (secret c) (err c) (connCh c) (objsCh c) (timeoutCh c) (waitCh c) (linesCh c) (over c) (proc c) (client c).
Definition set_addr v c := mkCtrl (objs c) (proto c) v (secret c) (err c) (connCh c) (objsCh c) (timeoutCh c) (waitCh c) (linesCh c) (over c) (proc c) (client c).
Definition set_secret v c := mkCtrl (objs c) (proto c) (addr c) v (err c) (connCh c) (objsCh c) (timeoutCh c) (waitCh c) (linesCh c) (over c) (proc c) (client c).
Definition set_err v c := mkCtrl (objs c) (proto c) (addr c) (secret c) v (connCh c) (objsCh c) (timeoutCh c) (waitCh c) (linesCh c) (over c) (proc c) (client c).
Definition set_connCh v c := mkCtrl (objs c) (proto c) (addr c) (secret c) (err c) v (objsCh c) (timeoutCh c) (waitCh c) (linesCh c) (over c) (proc c) (client c).
Definition set_objsCh v c := mkCtrl (objs c) (proto c) (addr c) (secret c) (err c) (connCh c) v (timeoutCh c) (waitCh c) (linesCh c) (over c) (proc c) (client c).
Definition set_timeoutCh v c := mkCtrl (objs c) (proto c) (addr c) (secret c) (err c) (connCh c) (objsCh c) v (waitCh c) (linesCh c) (over c) (proc c) (client c).
Definition set_waitCh v c := mkCtrl (objs c) (proto c) (addr c) (secret c) (err c) (connCh c) (objsCh c) (timeoutCh c) v (linesCh c) (over c) (proc c) (client c).
Definition set_linesCh v c := mkCtrl (objs c) (proto c) (addr c) (secret c) (err c) (connCh c) (objsCh c) (timeoutCh c) (waitCh c) v (over c) (proc c) (client c).
Definition set_over v c := mkCtrl (objs c) (proto c) (addr c) (secret c) (err c) (connCh c) (objsCh c) (timeoutCh c) (waitCh c) (linesCh c) v (proc c) (client c).
Definition set_proc v c := mkCtrl (objs c) (proto c) (addr c) (secret c) (err c) (connCh c) (objsCh c) (timeoutCh c) (waitCh c) (linesCh c) (over c) v (client c).
Definition set_client v c := mkCtrl (objs c) (proto c) (addr c) (secret c) (err c) (connCh c) (objsCh c) (timeoutCh c) (waitCh c) (linesCh c) (over c) (proc c) v.

(** What the loop does to the outside, in order. *)
Inductive effect : Type :=
| CallDone (r : nat) (cl : option Client) (e : option error)
    (* [r.client] and [r.err] as left when [r.wr.done()] is called *)
| ObjectsDone (o : nat) (lst : list string) (e : option error)
    (* [o.list] and [o.err] as left when [o.wr.done()] is called *)
| PrintLine (line : string)          (* [p.handler.Print(line)] *)
| PrintError (e : error)             (* [p.handler.Print(err)] *)
| HandlerError (e : error)           (* [p.handler.Error(err)] *)
| Dial (net address : string) (timeout : Z)   (* [net.DialTimeout] *)
| Wrote (data : string)              (* [io.WriteString] on the connection *)
| Remove (path : string)             (* [os.Remove] *)
| Kill (pid : Z)                     (* [c.proc.Kill()] *)
| GoDeadline (pid : Z) (t : Z)       (* the deadline goroutine is started *)
| PidKill (pid : Z)                  (* [proc.Kill()] of the deadline goroutine *)
| CallExit                           (* [c.client.Call("PingoRpc.Exit", 0, nil)] *)
| ClientClose                        (* [c.client.Close()] *)
| WaiterDone (wr : waiter).          (* [wr.done()] *)

(** The answers of the operating system: [None] is success. *)
Record World := mkWorld {
  DialTimeout : string -> string -> Z -> option error;
  WriteString : string -> option error;
  os_Remove : string -> option error
}.

(** A method of [ctrl]: it reads and writes the state, acts on the outside,
    and may panic ([None]). *)
Definition Sup (A : Type) : Type := ctrl -> option (A * ctrl * list effect).

#[global] Instance Sup_ret : MRet Sup := fun A a c => Some (a, c, []).
#[global] Instance Sup_bind : MBind Sup := fun A B f m c =>
  match m c with
  | Some (a, c, fx) =>
      match f a c with
      | Some (b, c, fx') => Some (b, c, fx ++ fx')
      | None => None
      end
  | None => None
  end.

Definition get : Sup ctrl := fun c => Some (c, c, []).
Definition modify (f : ctrl -> ctrl) : Sup unit := fun c => Some (tt, f c, []).
Definition emit (e : effect) : Sup unit := fun c => Some (tt, c, [e]).
Definition try {A} (o : option A) : Sup A :=
  fun c => match o with Some a => Some (a, c, []) | None => None end.
Definition skip : Sup unit := mret tt.

(** [ctrl.isFatal] *)
Definition isFatal (c : ctrl) : bool :=
  match err c with Some _ => true | None => false end.

(** [ctrl.close] *)
Definition close : Sup unit :=
  modify (set_connCh false);; modify (set_objsCh false).

(** [ctrl.open] *)
Definition open : Sup unit :=
  modify (set_connCh true);; modify (set_objsCh true).

(** [ctrl.kill] *)
Definition kill : Sup unit :=
  c ← get;
  match proc c with
  | None => skip
  | Some pid => emit (Kill pid);; modify (set_proc None)
  end.

(** [ctrl.fatal] *)
Definition fatal (e : error) : Sup unit :=
  modify (set_err (Some e));; open;; kill.

(** [ctrl.parseReady] *)
Definition parseReady (str : string) : Sup (option error) :=
  if negb (HasPrefix str "proto=") then mret (Some errInvalidMessage)
  else
    str ← try (slice_from str 6);
    let s := IndexByte str " " in
    if s <? 0 then mret (Some errInvalidMessage)
    else
      proto ← try (slice str 0 s);
      if negb (String.eqb proto "unix") && negb (String.eqb proto "tcp")
      then mret (Some errInvalidMessage)
      else
        modify (set_proto proto);;
        str ← try (slice_from str (s + 1));
        if negb (HasPrefix str "addr=") then mret (Some errInvalidMessage)
        else
          a ← try (slice_from str 5);
          modify (set_addr a);;
          mret None.

(** The loop of [ctrl.objects]: [rest] is [c.objs[i:]] and [lst] the slice
    [list]; the assignment [list[j] = c.objs[i]] panics when [j] is not an
    index of [list]. *)
Fixpoint objects_loop (rest lst : list string) (j : nat) : option (list string) :=
  match rest with
  | [] => Some lst
  | o :: rest =>
      if String.eqb o internalObject then objects_loop rest lst j
      else if (j <? length lst)%nat then objects_loop rest (<[j := o]> lst) (S j)
      else None
  end.

(** [ctrl.objects]; [make] panics on a negative length. *)
Definition objects (c : ctrl) : option (list string) :=
  let n := Z.of_nat (length (objs c)) - 1 in
  if n <? 0 then None
  else objects_loop (objs c) (replicate (Z.to_nat n) "") 0.

Section Loop.
Variable w : World.
Variable p : Plugin.
(** The pid that [run] received from [ctrl.wait]. *)
Variable pid : Z.

(** [dialAuthRpc]: the client, or the error of the dial or of the write
    of the authentication header. *)
Definition dialAuthRpc (secret net address : string) (timeout : Z)
  : Sup (error + Client) :=
  emit (Dial net address timeout);;
  match DialTimeout w net address timeout with
  | Some e => mret (inl e)
  | None =>
      let data := "Auth-Token: " +:+ secret +:+ String LF (String LF "") in
      emit (Wrote data);;
      match WriteString w data with
      | Some e => mret (inl e)
      | None => mret (inr (mkClient net address))
      end
  end.

(** [ctrl.ready] *)
Definition ready (val : string) : Sup bool :=
  e ← parseReady val;
  match e with
  | Some e => fatal e;; mret false
  | None =>
      c ← get;
      res ← dialAuthRpc (secret c) (proto c) (addr c) (initTimeout p);
      match res with
      | inl e => modify (set_client None);; fatal e;; mret false
      | inr cl =>
          modify (set_client (Some cl));;
          (if String.eqb (proto c) "unix" then
             emit (Remove (addr c));;
             match os_Remove w (addr c) with
             | Some e =>
                 emit (HandlerError
                         (New ("Cannot remove temporary socket: " +:+ Error e)))
             | None => skip
             end
           else skip);;
          modify (set_timeoutCh TimerNil);;
          mret true
      end
  end.

(** The cases of the [select] of [Plugin.run]. *)
Inductive event : Type :=
| Timeout                          (* [<-c.timeoutCh] *)
| CallReq (r : nat)                (* [r := <-c.connCh] *)
| ObjectsReq (o : nat)             (* [o := <-c.objsCh] *)
| Line (line : string)             (* [line := <-c.linesCh] *)
| KillReq (wr : waiter)            (* [wr := <-p.killCh] *)
| WaitDone (e : option error)      (* [err := <-c.waitCh] *)
| ExitConfirm.                     (* [<-p.exitCh] *)

Definition on_timeout : Sup unit :=
  modify (set_timeoutCh TimerSpent);;
  fatal errRegistrationTimeout.

Definition on_call (r : nat) : Sup unit :=
  c ← get;
  if isFatal c then emit (CallDone r None (err c))
  else emit (CallDone r (client c) None).

Definition on_objects (o : nat) : Sup unit :=
  c ← get;
  if isFatal c then emit (ObjectsDone o [] (err c))
  else
    lst ← try (objects c);
    emit (ObjectsDone o lst None).

Definition on_line (line : string) : Sup unit :=
  '(key, val) ← try (parse (meta p) line);
  if String.eqb key "auth-token" then modify (set_secret val)
  else if String.eqb key "fatal" then
    e ← try (parseError val);
    match e with
    | Some e => fatal e
    | None => fatal (New val)
    end
  else if String.eqb key "error" then
    e ← try (parseError val);
    match e with
    | Some e => emit (PrintError e)
    | None => emit (PrintError (New val))
    end
  else if String.eqb key "objects" then modify (set_objs (Split val ", "))
  else if String.eqb key "ready" then
    ready val ≫= λ ok : bool,
    if ok then open else skip
  else emit (PrintLine line).

Definition on_kill (wr : waiter) : Sup unit :=
  c ← get;
  if negb (waitCh c) then emit (WaiterDone wr)
  else
    (if negb (connCh c) || negb (bool_decide (is_Some (client c))) then kill
     else emit (GoDeadline pid (exitTimeout p));; emit CallExit);;
    (if bool_decide (is_Some (client c)) then emit ClientClose else skip);;
    close;;
    modify (set_over (Some wr)).

Definition on_wait (e : option error) : Sup unit :=
  match e with
  | Some e =>
      (match e with
       | ExitError _ => skip
       | _ => emit (HandlerError e)
       end);;
      fatal e
  | None => skip
  end;;
  c ← get;
  match over c with
  | Some wr => emit (WaiterDone wr)
  | None => skip
  end;;
  modify (set_proc None);;
  modify (set_waitCh false);;
  modify (set_linesCh false).

(** One iteration of the loop on an event. *)
Inductive outcome : Type :=
| Next (c : ctrl) (fx : list effect)   (* the loop goes on *)
| Blocked                              (* the case cannot be selected *)
| Panicked
| Returned.                            (* [run] returns *)

Definition exec (m : Sup unit) (c : ctrl) : outcome :=
  match m c with
  | Some (_, c, fx) => Next c fx
  | None => Panicked
  end.

Definition step (c : ctrl) (ev : event) : outcome :=
  match ev with
  | Timeout =>
      match timeoutCh c with
      | TimerArmed => exec on_timeout c
      | _ => Blocked
      end
  | CallReq r => if connCh c then exec (on_call r) c else Blocked
  | ObjectsReq o => if objsCh c then exec (on_objects o) c else Blocked
  | Line line => if linesCh c then exec (on_line line) c else Blocked
  | KillReq wr => exec (on_kill wr) c
  | WaitDone e => if waitCh c then exec (on_wait e) c else Blocked
  | ExitConfirm => Returned
  end.

(** The loop over a sequence of events, as long as it goes on. *)
Fixpoint run (c : ctrl) (evs : list event) : option (ctrl * list effect) :=
  match evs with
  | [] => Some (c, [])
  | ev :: evs =>
      match step c ev with
      | Next c fx =>
          '(c, fx') ← run c evs;
          Some (c, fx ++ fx')
      | _ => None
      end
  end.

(** The state in which [run] enters the loop: [newCtrl], and the process
    when there is a pid and [os.FindProcess] found it. *)
Definition start (found : bool) : ctrl :=
  mkCtrl [] "" "" "" None false false TimerArmed true true None
    (if negb (pid =? 0) && found then Some pid else None) None.

(** The body of the deadline goroutine, once its timer has fired. *)
Definition deadline (pid : Z) (found : bool) : list effect :=
  if found then [PidKill pid] else [].

(** The loop together with its deadline goroutines. *)
Record system := mkSystem {
  sup : ctrl;
  deadlines : list Z       (* the pids of the goroutines still waiting *)
}.

Inductive sys_event : Type :=
| Select (ev : event)
| DeadlineFires (found : bool).   (* with the answer of [os.FindProcess] *)

Definition spawned (fx : list effect) : list Z :=
  omap (fun e => match e with GoDeadline pid _ => Some pid | _ => None end) fx.

Definition sys_step (s : system) (ev : sys_event) : option (system * list effect) :=
  match ev with
  | Select ev =>
      match step (sup s) ev with
      | Next c fx => Some (mkSystem c (deadlines s ++ spawned fx), fx)
      | _ => None
      end
  | DeadlineFires found =>
      match deadlines s with
      | pid :: rest => Some (mkSystem (sup s) rest, deadline pid found)
      | [] => None
      end
  end.

Fixpoint sys_run (s : system) (evs : list sys_event) : option (system * list effect) :=
  match evs with
  | [] => Some (s, [])
  | ev :: evs =>
      '(s, fx) ← sys_step s ev;
      '(s, fx') ← sys_run s evs;
      Some (s, fx ++ fx')
  end.

End Loop.

Definition is_kill (e : effect) : bool :=
  match e with Kill _ | PidKill _ => true | _ => false end.

Definition is_proc_kill (e : effect) : bool :=
  match e with Kill _ => true | _ => false end.

End Supervisor.

(** ** Notions used to state the properties *)

Module Notions.
Import GoString Utils Errors.

(** *** The child *)

Section Child.
Import Server.

Definition nl : string := String LF "".

Definition sample (secret : string) : rpcServer :=
  mkRpcServer secret ["PingoRpc"; "Greeter"] (mkConfig "unix" "" "pingoAbc12" "") true.

Definition slashJoin (dir name : string) : string := dir +:+ "/" +:+ name.

Definition child (network dir : string) : rpcServer :=
  mkRpcServer "s3cret" ["PingoRpc"; "Greeter"] (mkConfig network "" "pingoAbc12" dir) false.

Definition in_use : error := SysError "bind: address already in use".

End Child.

(** *** The supervisor *)

Import Supervisor.

(** A method of [ctrl] respects a relation between the state before, the
    effects and the state after when each of its runs is in the relation. *)
Definition respects (R : ctrl -> list effect -> ctrl -> Prop) {A} (m : Sup A) : Prop :=
  forall c a c' fx, m c = Some (a, c', fx) -> R c fx c'.

(** A world in which every dial, write and unlink succeeds. *)
Definition calm : World := mkWorld (fun _ _ _ => None) (fun _ => None) (fun _ => None).

Definition hello : Plugin := mkPlugin "./hello" [] 2000000000 2000000000 "pingoAbc12".

Definition greeter : Client := mkClient "unix" "/tmp/abcdefgh".

Definition failed_bind : ctrl :=
  mkCtrl [] "" "" "" (Some (ErrConnectionFailed (New "no port"))) true true
    TimerArmed true true None None None.

Definition serving : ctrl :=
  mkCtrl ["PingoRpc"; "Greeter"; "Clock"] "unix" "/tmp/abcdefgh" "s3cret" None
    true true TimerNil true true None (Some 4242) (Some greeter).

(** The kills of the child, in a trace, that are made through the process
    handle of the loop. *)
Definition handle_kills (fx : list effect) : nat := length (List.filter is_proc_kill fx).

(** The kills that the handle still allows: one while it is set. *)
Definition budget (c : ctrl) : nat :=
  match proc c with Some _ => 1 | None => 0 end.

(** The values that [parseReady] accepts: a known transport, then any
    address, the empty one included. *)
Definition ready_form (v : string) : Prop :=
  exists n a, (n = "unix" \/ n = "tcp") /\ v = "proto=" +:+ n +:+ " addr=" +:+ a.

(** The stored names without the built-in one, and the number of times the
    built-in name is stored. *)
Definition others (l : list string) : list string :=
  List.filter (fun o => negb (String.eqb o internalObject)) l.

Definition occurrences (l : list string) : nat :=
  length (List.filter (fun o => String.eqb o internalObject) l).

(** *** The handshake *)

Fixpoint all_chars (P : ascii -> bool) (s : string) : bool :=
  match s with
  | EmptyString => true
  | String c t => P c && all_chars P t
  end.

(** A byte of the alphabet of [randstr]. *)
Definition is_letter (c : ascii) : bool :=
  match index_byte c _letters with Some _ => true | None => false end.

(** A string made of bytes of the alphabet only. *)
Definition letters (s : string) : Prop := all_chars is_letter s = true.

(** A name without comma, as the names of Go types are. *)
Definition comma_free (s : string) : Prop := index_byte "," s = None.

(** The header block that opens an authenticated connection. *)
Definition prologue (secret : string) : string :=
  "Auth-Token: " +:+ secret +:+ String Server.LF (String Server.LF "").

(** The blank line that ends a header block: two newlines in a row. *)
Definition blank : string := String Server.LF (String Server.LF "").

(** The address of the tcp attempt number [k], counted from 0. *)
Definition port (k : nat) : string := "127.0.0.1:" +:+ itoa (1024 + Z.of_nat k).

(** *** The event loop *)

(** The request channels are open only with a latched error or a client;
    they are opened and closed together. *)
Definition admits (c : ctrl) : Prop :=
  connCh c = objsCh c /\ (connCh c = true -> err c <> None \/ client c <> None).

(** A Call is answered with a client and no error, or with an error and no
    client; an Objects request with an error carries no list. *)
Definition answered (e : effect) : Prop :=
  match e with
  | CallDone _ cl er => (er = None /\ cl <> None) \/ (er <> None /\ cl = None)
  | ObjectsDone _ l er => er = None \/ l = []
  | _ => True
  end.

(** The client was dialed and the authentication header written, in a
    trace. *)
Definition dialed (cl : Client) (fx : list effect) : Prop :=
  (exists t, In (Dial (network cl) (address cl) t) fx) /\ (exists d, In (Wrote d) fx).

(** The waiters signalled in a trace, and the waiters of the kill requests
    in a sequence of events, in order. *)
Definition dones (fx : list effect) : list waiter :=
  omap (fun e => match e with WaiterDone wr => Some wr | _ => None end) fx.

Definition stops (evs : list event) : list waiter :=
  omap (fun ev => match ev with KillReq wr => Some wr | _ => None end) evs.

(** The waiter that is pending after kill requests: the last of them, or
    the one pending before. *)
Definition pending (before : option waiter) (wrs : list waiter) : option waiter :=
  match last wrs with Some wr => Some wr | None => before end.

End Notions.

(** * Properties *)

(** ** Facts about the string primitives *)

Module GoStringFacts.
Import GoString.

Lemma length_take n s : String.length (take n s) = Nat.min n (String.length s).
Proof.
  revert s; induction n as [|n IH]; intros [|c t]; simpl; auto.
Qed.

Lemma append_cons c s t : String c s +:+ t = String c (s +:+ t).
Proof. reflexivity. Qed.

Lemma append_nil t : EmptyString +:+ t = t.
Proof. reflexivity. Qed.

Lemma length_append s t :
  String.length (s +:+ t) = (String.length s + String.length t)%nat.
Proof. induction s as [|c s IH]; [reflexivity|]. rewrite append_cons. simpl. now rewrite IH. Qed.

Lemma take_drop n s : take n s +:+ drop n s = s.
Proof.
  revert s; induction n as [|n IH]; intros [|c t]; simpl; auto.
  now rewrite append_cons, IH.
Qed.

Lemma take_app p t : take (String.length p) (p +:+ t) = p.
Proof.
  induction p as [|c p IH]; [now destruct t|].
  rewrite append_cons. simpl. now rewrite IH.
Qed.

Lemma drop_app p t : drop (String.length p) (p +:+ t) = t.
Proof. induction p as [|c p IH]; [reflexivity|]. now rewrite append_cons. Qed.

Lemma take_all s : take (String.length s) s = s.
Proof. induction s as [|c s IH]; simpl; [reflexivity | now rewrite IH]. Qed.

Lemma HasPrefix_app s p : HasPrefix s p = true <-> exists t, s = p +:+ t.
Proof.
  unfold HasPrefix. revert s; induction p as [|c p IH]; intros s.
  - split; [exists s; reflexivity | now destruct s].
  - destruct s as [|d s]; simpl.
    + split; [discriminate | intros [t Ht]; discriminate].
    + destruct (ascii_dec c d) as [->|Hne].
      * rewrite IH. split; intros [t Ht]; exists t.
        -- now rewrite append_cons, Ht.
        -- rewrite append_cons in Ht. now inversion Ht.
      * split; [discriminate | intros [t Ht]].
        rewrite append_cons in Ht. inversion Ht; congruence.
Qed.

Lemma slice_from_app p t : slice_from (p +:+ t) (len p) = Some t.
Proof.
  unfold slice_from, slice, len.
  rewrite length_append.
  replace (_ && _ && _) with true by (symmetry; rewrite !andb_true_iff, !Z.leb_le; lia).
  f_equal. rewrite Nat2Z.id, drop_app.
  replace (Z.to_nat _) with (String.length t) by lia.
  apply take_all.
Qed.

Lemma slice_Some s lo hi :
  0 <= lo <= hi -> hi <= len s ->
  slice s lo hi = Some (take (Z.to_nat (hi - lo)) (drop (Z.to_nat lo) s)).
Proof.
  intros Hlo Hhi. unfold slice.
  replace (_ && _ && _) with true; [reflexivity|].
  symmetry. rewrite !andb_true_iff, !Z.leb_le. lia.
Qed.

Lemma slice_None s lo hi : len s < hi -> slice s lo hi = None.
Proof.
  intros H. unfold slice.
  replace (hi <=? len s) with false by (symmetry; apply Z.leb_gt; lia).
  now rewrite andb_false_r.
Qed.

Lemma slice_from_None s lo : len s < lo -> slice_from s lo = None.
Proof.
  intros H. unfold slice_from, slice.
  replace (lo <=? len s) with false by (symmetry; apply Z.leb_gt; lia).
  now rewrite andb_false_r.
Qed.

Lemma length_drop n s : String.length (drop n s) = (String.length s - n)%nat.
Proof. revert s; induction n as [|n IH]; intros [|c t]; simpl; auto. Qed.

Lemma take_ge n s : (String.length s <= n)%nat -> take n s = s.
Proof.
  revert s; induction n as [|n IH]; intros [|c t]; simpl; intros H;
    try reflexivity; [lia|]. rewrite IH; [reflexivity | lia].
Qed.

Lemma slice_from_Some s lo :
  0 <= lo <= len s -> slice_from s lo = Some (drop (Z.to_nat lo) s).
Proof.
  intros H. unfold slice_from. rewrite slice_Some by lia.
  f_equal. apply take_ge. rewrite length_drop. unfold len. lia.
Qed.

Lemma slice_prefix s n :
  0 <= n <= len s -> slice s 0 n = Some (take (Z.to_nat n) s).
Proof. intros H. rewrite slice_Some by lia. now rewrite Z.sub_0_r. Qed.

Lemma HasPrefix_take s p :
  (String.length p <= String.length s)%nat ->
  HasPrefix s p = true <-> take (String.length p) s = p.
Proof.
  intros Hlen. rewrite HasPrefix_app. split.
  - intros [t ->]. apply take_app.
  - intros H. exists (drop (String.length p) s).
    rewrite <- H at 1. symmetry. apply take_drop.
Qed.

Lemma index_byte_Some c s i :
  index_byte c s = Some i ->
  s = take i s +:+ String c (drop (S i) s) /\ index_byte c (take i s) = None.
Proof.
  revert i; induction s as [|d t IH]; intros i; simpl; [discriminate|].
  destruct (Ascii.eqb_spec d c) as [->|Hne].
  - intros [= <-]. now destruct t.
  - destruct (index_byte c t) as [j|] eqn:Hj; [|discriminate].
    intros [= <-]. destruct (IH j eq_refl) as [Ht Hnone]. split.
    + cbn [take]. rewrite append_cons. f_equal. exact Ht.
    + cbn [take index_byte]. destruct (Ascii.eqb_spec d c); [congruence|].
      now rewrite Hnone.
Qed.

Lemma index_byte_lt c s i : index_byte c s = Some i -> (i < String.length s)%nat.
Proof.
  revert i; induction s as [|d t IH]; intros i; simpl; [discriminate|].
  destruct (Ascii.eqb d c); [intros [= <-]; lia|].
  destruct (index_byte c t) as [j|]; [|discriminate].
  intros [= <-]. specialize (IH j eq_refl). lia.
Qed.

Lemma index_byte_app_skip c p s :
  index_byte c p = None ->
  index_byte c (p +:+ s) = (fun i => (String.length p + i)%nat) <$> index_byte c s.
Proof.
  induction p as [|d p IH]; intros H.
  - rewrite append_nil. now destruct (index_byte c s).
  - rewrite append_cons. simpl in *.
    destruct (Ascii.eqb d c); [discriminate|].
    destruct (index_byte c p); [discriminate|].
    rewrite IH by reflexivity. now destruct (index_byte c s).
Qed.

Lemma drop_app_plus p n t :
  drop (String.length p + n) (p +:+ t) = drop n t.
Proof. induction p as [|c p IH]; [reflexivity|]. now rewrite append_cons. Qed.

Lemma append_assoc s t u : (s +:+ t) +:+ u = s +:+ (t +:+ u).
Proof. induction s as [|c s IH]; [reflexivity|]. rewrite !append_cons. now rewrite IH. Qed.

Lemma eqb_refl s : String.eqb s s = true.
Proof. now apply String.eqb_eq. Qed.

Lemma eqb_false s t : s <> t -> String.eqb s t = false.
Proof. now intros H; apply String.eqb_neq. Qed.

Lemma slice_prefix_app p t : slice (p +:+ t) 0 (len p) = Some p.
Proof.
  rewrite slice_prefix.
  - unfold len. now rewrite Nat2Z.id, take_app.
  - unfold len. rewrite length_append. lia.
Qed.

Lemma slice_from_app_plus p t n :
  0 <= n <= len t ->
  slice_from (p +:+ t) (len p + n) = Some (drop (Z.to_nat n) t).
Proof.
  intros Hn. rewrite slice_from_Some.
  - replace (Z.to_nat (len p + n)) with (String.length p + Z.to_nat n)%nat
      by (unfold len; lia).
    now rewrite drop_app_plus.
  - unfold len in *. rewrite length_append. lia.
Qed.

End GoStringFacts.

(** ** utils.go *)

Module UtilsFacts.
Import GoString GoStringFacts Utils.

Example output_ready :
  output "pingoAbc12" "ready" "proto=tcp addr=127.0.0.1:1024"
  = "pingoAbc12: ready: proto=tcp addr=127.0.0.1:1024".
Proof. reflexivity. Qed.

Example parse_ready :
  parse "pingoAbc12" "pingoAbc12: ready: proto=tcp addr=127.0.0.1:1024"
  = Some ("ready", "proto=tcp addr=127.0.0.1:1024").
Proof. reflexivity. Qed.

Example parse_foreign : parse "pingoAbc12" "hello world" = Some ("", "").
Proof. reflexivity. Qed.

Example parse_no_colon : parse "pingoAbc12" "pingoAbc12: hello" = Some ("", "").
Proof. reflexivity. Qed.

Example randstr_zero : fst (randstr 5 (fun _ => 0) 0) = "aaaaa".
Proof. reflexivity. Qed.

Example randstr_count : fst (randstr 4 (fun i => 61 + Z.of_nat i) 0) = "9_-a".
Proof. reflexivity. Qed.

Lemma randstr_length n src pos : String.length (fst (randstr n src pos)) = n.
Proof.
  revert pos; induction n as [|n IH]; intros pos; [reflexivity|].
  cbn [randstr]. unfold Intn.
  specialize (IH (S pos)). destruct (randstr n src (S pos)) as [rest pos'].
  cbn in *. now rewrite IH.
Qed.


(** A line that does not begin with the prefix gives the empty key (and
    never panics). *)
Lemma parse_without_prefix (h : meta) (line : string) :
  HasPrefix line h = false -> parse h line = Some ("", "").
Proof.
  intros Hpre. unfold parse.
  destruct (String.eqb line "") eqn:Hempty; [reflexivity|].
  destruct (len line <? len h) eqn:Hlen; [reflexivity|].
  apply Z.ltb_ge in Hlen. unfold len in Hlen.
  rewrite slice_prefix by (unfold len; lia).
  unfold len. rewrite Nat2Z.id. cbn [mbind option_bind].
  destruct (String.eqb_spec (take (String.length h) line) h) as [Heq|Hne];
    [|reflexivity].
  apply HasPrefix_take in Heq; [congruence | lia].
Qed.

(** The two bytes that follow the prefix are skipped, whatever they are,
    and so is the byte that follows the colon of the key. *)
Lemma parse_skips_two_bytes (h : meta) (a b x : ascii) (key val : string) :
  index_byte ":" key = None ->
  parse h (h +:+ String a (String b (key +:+ String ":" (String x val))))
  = Some (key, val).
Proof.
  intros Hkey. unfold parse.
  set (tail := String x val).
  set (body := key +:+ String ":" tail).
  set (rest := String a (String b body)).
  assert (Hrest : len rest = 2 + len body) by (unfold rest, len; simpl; lia).
  assert (Hlen : len (h +:+ rest) = len h + len rest)
    by (unfold len; rewrite length_append; lia).
  rewrite eqb_false
    by (intros E; apply (f_equal len) in E; rewrite Hlen, Hrest in E;
        unfold len in E; simpl in E; lia).
  replace (len (h +:+ rest) <? len h) with false
    by (symmetry; apply Z.ltb_ge; unfold len in *; lia).
  rewrite slice_prefix_app. cbn [mbind option_bind].
  rewrite eqb_refl. cbn [negb].
  rewrite slice_from_app_plus by (unfold len in *; lia).
  change (drop (Z.to_nat 2) rest) with body. cbn [mbind option_bind].
  assert (Hidx : IndexByte body ":" = len key).
  { unfold IndexByte, body. rewrite index_byte_app_skip by exact Hkey.
    cbn [index_byte]. rewrite Ascii.eqb_refl.
    cbn [fmap option_fmap option_map]. unfold len. lia. }
  rewrite Hidx.
  replace (len key <? 0) with false by (symmetry; apply Z.ltb_ge; unfold len; lia).
  unfold body. rewrite slice_prefix_app. cbn [mbind option_bind].
  rewrite slice_from_app_plus by (unfold len; simpl; lia).
  reflexivity.
Qed.

(** What [output] prints, [parse] reads back, for a key without colon. *)
Lemma parse_output (h : meta) (key val : string) :
  index_byte ":" key = None -> parse h (output h key val) = Some (key, val).
Proof.
  intros Hkey. unfold output.
  change (h +:+ ": " +:+ key +:+ ": " +:+ val)
    with (h +:+ String ":" (String " " (key +:+ String ":" (String " " val)))).
  now apply parse_skips_two_bytes.
Qed.

(** A line made of the prefix and fewer than two more bytes makes [parse]
    panic on [line[len(h)+2:]]. *)
Lemma parse_short_line_panics (h : meta) (rest : string) :
  h +:+ rest <> "" -> (String.length rest < 2)%nat -> parse h (h +:+ rest) = None.
Proof.
  intros Hne Hshort. unfold parse.
  rewrite (eqb_false _ _ Hne).
  assert (Hlen : len (h +:+ rest) = len h + len rest)
    by (unfold len; rewrite length_append; lia).
  replace (len (h +:+ rest) <? len h) with false
    by (symmetry; apply Z.ltb_ge; unfold len in *; lia).
  rewrite slice_prefix_app. cbn [mbind option_bind].
  rewrite eqb_refl. cbn [negb].
  rewrite slice_from_None; [reflexivity|]. unfold len in *. lia.
Qed.

End UtilsFacts.

(** ** errors.go *)

Module ErrorsFacts.
Import GoString GoStringFacts Utils Errors.

Example parseError_code :
  parseError "err-connection-failed: Could not connect in 4 attemps, using unix protocol"
  = Some (Some (ErrConnectionFailed (New "Could not connect in 4 attemps, using unix protocol"))).
Proof. reflexivity. Qed.

Example parseError_other : parseError "disk: full: now" = Some (Some (New "full: now")).
Proof. reflexivity. Qed.

Example parseError_empty : parseError "" = Some None.
Proof. reflexivity. Qed.

Example parseError_leading_sep : parseError ": x" = Some None.
Proof. reflexivity. Qed.


(** A non-empty line without the separator makes [parseError] panic on
    [parts[1]]. *)
Lemma parseError_panics_without_separator (line : string) :
  line <> "" -> index_sub ": " line = None -> parseError line = None.
Proof.
  intros Hne Hsep. unfold parseError, SplitN.
  destruct line as [|c t]; [congruence|].
  cbn [String.length Nat.pred genSplit]. rewrite Hsep.
  cbn [lookup list_lookup mbind option_bind].
  now rewrite (eqb_false _ _ Hne).
Qed.

(** With the separator in the line, [parseError] returns. *)
Lemma parseError_returns_with_separator (line : string) (i : nat) :
  index_sub ": " line = Some i -> exists r, parseError line = Some r.
Proof.
  intros Hsep. unfold parseError, SplitN.
  destruct line as [|c t]; [discriminate|].
  cbn [String.length Nat.pred genSplit]. rewrite Hsep.
  destruct (String.length t);
    cbn [genSplit lookup list_lookup mbind option_bind];
    repeat (case_match; eauto).
Qed.

End ErrorsFacts.

(** ** server.go *)

Module ServerFacts.
Import GoString GoStringFacts Utils UtilsFacts Errors Server Notions.

Example serveConn_accepts :
  serveConn (sample "s3cret") ("Auth-Token: s3cret" +:+ nl +:+ nl +:+ "rpc bytes") "pingoAbc12"
  = ([ServeConn "rpc bytes"; Close], false).
Proof. reflexivity. Qed.

Example serveConn_mismatch :
  serveConn (sample "s3cret") ("Auth-Token: guess" +:+ nl +:+ nl +:+ "rpc bytes") "pingoAbc12"
  = ([Close], false).
Proof. reflexivity. Qed.

Example serveConn_omitted :
  serveConn (sample "s3cret") ("Host: x" +:+ nl +:+ nl +:+ "rpc bytes") "pingoAbc12"
  = ([Close], false).
Proof. reflexivity. Qed.

Example serveConn_empty_secret :
  serveConn (sample "") ("Auth-Token: " +:+ nl +:+ nl +:+ "rpc bytes") "pingoAbc12"
  = ([Close], false).
Proof. reflexivity. Qed.

Example serveConn_eof :
  serveConn (sample "s3cret") ("Auth-Token: s3cret" +:+ nl) "pingoAbc12"
  = ([Output "pingoAbc12: error: EOF"; Close], false).
Proof. reflexivity. Qed.

(** A header line without separator makes the goroutine panic; nothing is
    dispatched. *)
Example serveConn_bad_line :
  serveConn (sample "s3cret")
    ("Auth-Token: s3cret" +:+ nl +:+ "junk" +:+ nl +:+ nl +:+ "rpc bytes") "pingoAbc12"
  = ([Close], true).
Proof. reflexivity. Qed.

Lemma authConn_true (r : rpcServer) (token : string) :
  authConn r token = true <-> token <> "" /\ token = secret r.
Proof.
  unfold authConn.
  destruct (String.eqb_spec token "") as [->|Hne]; cbn [negb andb].
  - split; [discriminate | intros [H _]; congruence].
  - destruct (String.eqb_spec token (secret r)) as [Heq|Hdiff].
    + now split.
    + split; [discriminate | intros [_ H]; congruence].
Qed.

Lemma secret_length (src : Source) (pos : nat) (c : config) :
  String.length (secret (fst (newRpcServer src pos c))) = 64%nat.
Proof.
  unfold newRpcServer.
  pose proof (randstr_length 64 src pos) as H.
  destruct (randstr 64 src pos) as [s pos']. exact H.
Qed.

(** C2. A connection is handed to the RPC server if and only if its header
    block was read and parsed and the value it gives to [Auth-Token] is not
    empty and equals the secret of the server; whatever the bytes received,
    the connection is closed; and the secret of a new server has 64
    characters. *)
Theorem serveConn_dispatch_iff_token :
  (forall (r : rpcServer) (input : string) (h : meta),
      (dispatched (serveConn r input h) = true <->
       exists (m : gmap string string) (rest tok : string),
         parseHeaders input ∅ = Some (inr (m, rest))
         /\ m !! "Auth-Token" = Some tok /\ tok <> "" /\ tok = secret r)
      /\ closed (serveConn r input h) = true)
  /\ (forall (src : Source) (pos : nat) (c : config),
        String.length (secret (fst (newRpcServer src pos c))) = 64%nat).
Proof.
  split; [|apply secret_length].
  intros r input h. unfold serveConn.
  destruct (parseHeaders input ∅) as [[err|[m rest]]|] eqn:Hparse.
  - split; [|reflexivity]. split; [discriminate|].
    intros (m & rest & tok & H & _); discriminate.
  - destruct (authConn r (map_get m "Auth-Token")) eqn:Hauth.
    + split; [|reflexivity]. split; [intros _|reflexivity].
      apply authConn_true in Hauth as [Hne Heq]. unfold map_get in *.
      destruct (m !! "Auth-Token") as [tok|] eqn:Htok; [|now elim Hne].
      now exists m, rest, tok.
    + split; [|reflexivity]. split; [discriminate|].
      intros (m' & rest' & tok & [= <- <-] & Htok & Hne & Heq).
      assert (authConn r (map_get m "Auth-Token") = true); [|congruence].
      apply authConn_true. unfold map_get. now rewrite Htok.
  - split; [|reflexivity]. split; [discriminate|].
    intros (m & rest & tok & H & _); discriminate.
Qed.

Lemma serveConn_dispatch_iff_token_witness :
  exists (m : gmap string string) (rest tok : string),
    parseHeaders ("Auth-Token: s3cret" +:+ nl +:+ nl +:+ "rpc bytes") ∅ = Some (inr (m, rest))
    /\ m !! "Auth-Token" = Some tok /\ tok <> "" /\ tok = secret (sample "s3cret").
Proof.
  apply (proj1 (proj1 (proj1 serveConn_dispatch_iff_token (sample "s3cret")
                         ("Auth-Token: s3cret" +:+ nl +:+ nl +:+ "rpc bytes") "pingoAbc12"))).
  reflexivity.
Defined.

(** The header that the supervisor writes is accepted by the server that
    printed the secret. *)
Example prologue_accepted :
  let r := fst (newRpcServer (fun i => Z.of_nat i) 0 (mkConfig "unix" "" "pingoAbc12" "")) in
  dispatched (serveConn r ("Auth-Token: " +:+ secret r +:+ nl +:+ nl) "pingoAbc12") = true.
Proof. vm_compute. reflexivity. Qed.

(** *** The bind policy *)

Example run_tcp_third_port :
  let res := run slashJoin id (fun _ => 0)
               (fun i _ _ => if (i <? 2)%nat then Some in_use else None)
               (child "tcp" "") 0 in
  attempts res = ["127.0.0.1:1024"; "127.0.0.1:1025"; "127.0.0.1:1026"]
  /\ out res = ["pingoAbc12: objects: PingoRpc, Greeter";
                "pingoAbc12: auth-token: s3cret";
                "pingoAbc12: ready: proto=tcp addr=127.0.0.1:1026"]
  /\ failure res = None.
Proof. vm_compute. auto. Qed.

(** With every port taken, the child tries the 500 ports from 1024 on, in
    order, prints the fatal line and returns the error. *)
Lemma run_tcp_all_fail :
  let res := run slashJoin id (fun _ => 0) (fun _ _ _ => Some in_use) (child "tcp" "") 0 in
  attempts res
  = map (fun k => "127.0.0.1:" +:+ itoa (1023 + Z.of_nat k)) (seq 1 500)
  /\ out res = ["pingoAbc12: objects: PingoRpc, Greeter";
                "pingoAbc12: fatal: err-connection-failed: Could not connect in 500 attemps, using tcp protocol"]
  /\ failure res = Some in_use.
Proof. vm_compute. auto. Qed.

Lemma run_unix_all_fail :
  let res := run slashJoin id (fun i => Z.of_nat i) (fun _ _ _ => Some in_use)
               (child "unix" "") 0 in
  attempts res = ["abcdefgh"; "ijklmnop"; "qrstuvwx"; "yzABCDEF"]
  /\ out res = ["pingoAbc12: objects: PingoRpc, Greeter";
                "pingoAbc12: fatal: err-connection-failed: Could not connect in 4 attemps, using unix protocol"]
  /\ failure res = Some in_use.
Proof. vm_compute. auto. Qed.

(** The directory of the configuration has no part in the addresses that
    [run] tries. *)
Lemma run_unixdir_irrelevant pathJoin fromSlash src listen s o network a pre d1 d2 pos :
  attempts (run pathJoin fromSlash src listen
              (mkRpcServer s o (mkConfig network a pre d1) false) pos)
  = attempts (run pathJoin fromSlash src listen
                (mkRpcServer s o (mkConfig network a pre d2) false) pos).
Proof.
  unfold run. cbn [conf proto addr prefix objs].
  destruct (String.eqb network "tcp");
    repeat case_match; simplify_eq; reflexivity.
Qed.

(** C7, at the input where it fails: with the unix transport and the
    socket directory [/var/run/pingo] configured, the child listens on the
    bare random name, in its working directory, whatever [path.Join]
    computes: [run] starts from the empty [unix] value and never reads
    [conf.unixdir]. *)
Theorem run_unix_ignores_socket_directory :
  forall (pathJoin : string -> string -> string) (fromSlash : string -> string),
    let res := run pathJoin fromSlash (fun _ => 0) (fun _ _ _ => None)
                 (child "unix" "/var/run/pingo") 0 in
    attempts res = ["aaaaaaaa"]
    /\ addr (conf (server res)) = "aaaaaaaa"
    /\ unixdir (conf (server res)) = "/var/run/pingo"
    /\ out res = ["pingoAbc12: objects: PingoRpc, Greeter";
                  "pingoAbc12: auth-token: s3cret";
                  "pingoAbc12: ready: proto=unix addr=aaaaaaaa"]
    /\ fst (unix_addr slashJoin id (fun _ => 0) "/var/run/pingo" 0)
       = "/var/run/pingo/aaaaaaaa".
Proof. intros pathJoin fromSlash. vm_compute. auto 6. Qed.

End ServerFacts.

(** ** plugin.go *)

Module SupervisorFacts.
Import GoString GoStringFacts Utils UtilsFacts Errors ErrorsFacts Supervisor Notions.

(** *** Relations between the states of the loop *)

(** A relation between the state before, the effects and the state after
    that looks only at the latched error, at the process handle and at the
    kills through that handle is respected by every method of [ctrl] and by
    every iteration of the loop, as soon as it is respected by the three
    assignments [c.err = err], [c.proc = nil] and by [c.proc.Kill()]. *)
Section Respects.
Variable R : ctrl -> list effect -> ctrl -> Prop.
Hypothesis R_trans : forall c fx c' fx' c'',
    R c fx c' -> R c' fx' c'' -> R c (fx ++ fx') c''.
Hypothesis R_frame : forall c c', err c' = err c -> proc c' = proc c -> R c [] c'.
Hypothesis R_emit : forall c e, is_proc_kill e = false -> R c [e] c.
Hypothesis R_latch : forall c e, R c [] (set_err (Some e) c).
Hypothesis R_reap : forall c, R c [] (set_proc None c).
Hypothesis R_kill : forall c pid, proc c = Some pid -> R c [Kill pid] (set_proc None c).

Local Abbreviation respects := (Notions.respects R).

Lemma respects_ret {A} (a : A) : respects (mret a).
Proof. intros c a' c' fx [= <- <- <-]. now apply R_frame. Qed.

Lemma respects_bind {A B} (m : Sup A) (f : A -> Sup B) :
  respects m -> (forall a, respects (f a)) -> respects (m ≫= f).
Proof.
  intros Hm Hf c b c'' fx. unfold mbind, Sup_bind.
  destruct (m c) as [[[a c'] fx1]|] eqn:E1; [|discriminate].
  destruct (f a c') as [[[b' c2] fx2]|] eqn:E2; [|discriminate].
  intros [= <- <- <-]. eapply R_trans; [eapply Hm | eapply Hf]; eauto.
Qed.

Lemma respects_get : respects get.
Proof. intros c a c' fx [= <- <- <-]. now apply R_frame. Qed.

Lemma respects_try {A} (o : option A) : respects (try o).
Proof. intros c a c' fx. unfold try. destruct o; intros [= <- <- <-]. now apply R_frame. Qed.

Lemma respects_skip : respects skip.
Proof. apply respects_ret. Qed.

Lemma respects_emit (e : effect) : is_proc_kill e = false -> respects (emit e).
Proof. intros He c a c' fx [= <- <- <-]. now apply R_emit. Qed.

Lemma respects_modify (f : ctrl -> ctrl) :
  (forall c, err (f c) = err c /\ proc (f c) = proc c) -> respects (modify f).
Proof. intros Hf c a c' fx [= <- <- <-]. apply R_frame; apply Hf. Qed.

Lemma respects_latch (e : error) : respects (modify (set_err (Some e))).
Proof. intros c a c' fx [= <- <- <-]. apply R_latch. Qed.

Lemma respects_reap : respects (modify (set_proc None)).
Proof. intros c a c' fx [= <- <- <-]. apply R_reap. Qed.

Lemma respects_kill : respects kill.
Proof.
  intros c a c' fx. unfold kill, mbind, Sup_bind, get.
  destruct (proc c) as [pid|] eqn:Hproc; cbn.
  - intros [= <- <- <-]. now apply R_kill.
  - intros [= <- <- <-]. now apply R_frame.
Qed.

Ltac respects_step :=
  first
    [ solve [auto]
    | apply respects_ret | apply respects_get | apply respects_try
    | apply respects_skip | apply respects_kill
    | apply respects_latch | apply respects_reap
    | apply respects_emit; reflexivity
    | apply respects_modify; intros; split; reflexivity
    | apply respects_bind; [|intros ?; cbv beta]
    | match goal with
      | |- respects (if ?b then _ else _) => destruct b
      | |- respects (match ?x with _ => _ end) => destruct x
      | |- respects (let _ := _ in _) => cbv zeta
      end ].

Ltac respects_all := repeat respects_step.

Lemma respects_close : respects close.
Proof. unfold close. respects_all. Qed.

Lemma respects_open : respects open.
Proof. unfold open. respects_all. Qed.

Lemma respects_fatal (e : error) : respects (fatal e).
Proof. pose proof respects_open. unfold fatal. respects_all. Qed.

Lemma respects_parseReady (str : string) : respects (parseReady str).
Proof. unfold parseReady. respects_all. Qed.

Section WithLoop.
Variable w : World.
Variable p : Plugin.
Variable pid : Z.

Lemma respects_dialAuthRpc s n a t : respects (dialAuthRpc w s n a t).
Proof. unfold dialAuthRpc. respects_all. Qed.

Lemma respects_ready (val : string) : respects (ready w p val).
Proof.
  pose proof respects_parseReady. pose proof respects_fatal.
  pose proof respects_dialAuthRpc.
  unfold ready. respects_all.
Qed.

Lemma respects_on_timeout : respects on_timeout.
Proof. pose proof respects_fatal. unfold on_timeout. respects_all. Qed.

Lemma respects_on_call r : respects (on_call r).
Proof. unfold on_call. respects_all. Qed.

Lemma respects_on_objects o : respects (on_objects o).
Proof. unfold on_objects. respects_all. Qed.

Lemma respects_on_line line : respects (on_line w p line).
Proof.
  pose proof respects_fatal. pose proof respects_ready. pose proof respects_open.
  unfold on_line. respects_all.
Qed.

Lemma respects_on_kill wr : respects (on_kill p pid wr).
Proof. pose proof respects_close. unfold on_kill. respects_all. Qed.

Lemma respects_on_wait e : respects (on_wait e).
Proof. pose proof respects_fatal. unfold on_wait. respects_all. Qed.

Lemma exec_respects (m : Sup unit) c c' fx :
  respects m -> exec m c = Next c' fx -> R c fx c'.
Proof.
  intros Hm. unfold exec. destruct (m c) as [[[[] c1] fx1]|] eqn:E; [|discriminate].
  intros [= <- <-]. eapply Hm; eauto.
Qed.

Lemma step_respects c ev c' fx : step w p pid c ev = Next c' fx -> R c fx c'.
Proof.
  destruct ev; cbn [step]; repeat case_match; try discriminate;
    apply exec_respects;
    auto using respects_on_timeout, respects_on_call, respects_on_objects,
      respects_on_line, respects_on_kill, respects_on_wait.
Qed.

Lemma run_respects evs : forall c c' fx,
    run w p pid c evs = Some (c', fx) -> R c fx c'.
Proof.
  induction evs as [|ev evs IH]; intros c c' fx; cbn [run].
  - intros [= <- <-]. now apply R_frame.
  - destruct (step w p pid c ev) as [c1 fx1| | |] eqn:Hstep; try discriminate.
    cbn [mbind option_bind].
    destruct (run w p pid c1 evs) as [[c2 fx2]|] eqn:Hrun; [|discriminate].
    cbn. intros [= <- <-].
    eapply R_trans; [eapply step_respects | eapply IH]; eauto.
Qed.

Lemma sys_run_respects evs : forall s s' fx,
    sys_run w p pid s evs = Some (s', fx) -> R (sup s) fx (sup s').
Proof.
  induction evs as [|ev evs IH]; intros s s' fx; cbn [sys_run].
  - intros [= <- <-]. now apply R_frame.
  - destruct (sys_step w p pid s ev) as [[s1 fx1]|] eqn:Hstep; [|discriminate].
    cbn [mbind option_bind].
    destruct (sys_run w p pid s1 evs) as [[s2 fx2]|] eqn:Hrun; [|discriminate].
    cbn. intros [= <- <-].
    eapply R_trans; [|eapply IH; eauto].
    destruct ev as [ev|found]; cbn [sys_step] in Hstep.
    + destruct (step w p pid (sup s) ev) eqn:Hs; simplify_eq.
      cbn [sup]. eapply step_respects; eauto.
    + destruct (deadlines s) as [|d rest]; simplify_eq.
      cbn [sup]. destruct found; cbn [deadline]; [now apply R_emit | now apply R_frame].
Qed.
End WithLoop.
End Respects.


(** *** Sample runs *)

Example happy_path :
  snd <$> run calm hello 4242 (start 4242 true)
    [Line "pingoAbc12: objects: PingoRpc, Greeter";
     Line "pingoAbc12: auth-token: s3cret";
     Line "pingoAbc12: ready: proto=unix addr=/tmp/abcdefgh";
     CallReq 1; ObjectsReq 2; KillReq 3; WaitDone None]
  = Some [Dial "unix" "/tmp/abcdefgh" 2000000000;
          Wrote ("Auth-Token: s3cret" +:+ String LF (String LF ""));
          Remove "/tmp/abcdefgh";
          CallDone 1 (Some greeter) None;
          ObjectsDone 2 ["Greeter"] None;
          GoDeadline 4242 2000000000; CallExit; ClientClose;
          WaiterDone 3].
Proof. vm_compute. reflexivity. Qed.

Example registration_timeout :
  snd <$> run calm hello 4242 (start 4242 true) [Timeout; CallReq 1; KillReq 2; WaitDone None]
  = Some [Kill 4242; CallDone 1 None (Some errRegistrationTimeout); WaiterDone 2].
Proof. vm_compute. reflexivity. Qed.

Example invalid_ready :
  snd <$> run calm hello 4242 (start 4242 true)
    [Line "pingoAbc12: ready: proto=sctp addr=x"; CallReq 1]
  = Some [Kill 4242; CallDone 1 None (Some errInvalidMessage)].
Proof. vm_compute. reflexivity. Qed.

(** Requests are not taken before the handshake is over. *)
Example call_blocked_before_ready :
  step calm hello 4242 (start 4242 true) (CallReq 1) = Blocked.
Proof. reflexivity. Qed.

(** *** The latched error *)

Lemma isFatal_call w p pid c r :
  isFatal c = true -> connCh c = true ->
  step w p pid c (CallReq r) = Next c [CallDone r None (err c)].
Proof.
  intros Hf Hc. cbn [step]. rewrite Hc.
  unfold exec, on_call, mbind, Sup_bind, get. now rewrite Hf.
Qed.

Lemma isFatal_objects w p pid c o :
  isFatal c = true -> objsCh c = true ->
  step w p pid c (ObjectsReq o) = Next c [ObjectsDone o [] (err c)].
Proof.
  intros Hf Hc. cbn [step]. rewrite Hc.
  unfold exec, on_objects, mbind, Sup_bind, get. now rewrite Hf.
Qed.

(** C1, as the code has it: the latch is sticky but not write-once. From a
    state with a latched error, whatever events follow, the loop still has
    a latched error, and a Call or Objects request that it takes then
    completes with the error that is stored at that moment, that is, the
    error of the latest [fatal]. *)
Theorem fatal_latch_sticky (w : World) (p : Plugin) (pid : Z)
    (c : ctrl) (evs : list event) (c' : ctrl) (fx : list effect) :
  isFatal c = true ->
  run w p pid c evs = Some (c', fx) ->
  isFatal c' = true
  /\ (forall r, connCh c' = true ->
               step w p pid c' (CallReq r) = Next c' [CallDone r None (err c')])
  /\ (forall o, objsCh c' = true ->
               step w p pid c' (ObjectsReq o) = Next c' [ObjectsDone o [] (err c')]).
Proof.
  intros Hfatal Hrun.
  assert (Hc' : isFatal c' = true).
  { revert Hfatal.
    eapply (run_respects (fun c _ c' => isFatal c = true -> isFatal c' = true));
      try exact Hrun; clear; unfold isFatal; cbn; intros; auto.
    now rewrite H. }
  split; [exact Hc'|]. split; intros; [now apply isFatal_call | now apply isFatal_objects].
Qed.

Lemma fatal_latch_sticky_witness :
  isFatal (set_timeoutCh TimerSpent (set_err (Some errRegistrationTimeout) failed_bind)) = true
  /\ (forall r, connCh (set_timeoutCh TimerSpent (set_err (Some errRegistrationTimeout) failed_bind)) = true ->
       step calm hello 4242 (set_timeoutCh TimerSpent (set_err (Some errRegistrationTimeout) failed_bind)) (CallReq r)
       = Next (set_timeoutCh TimerSpent (set_err (Some errRegistrationTimeout) failed_bind))
           [CallDone r None (err (set_timeoutCh TimerSpent (set_err (Some errRegistrationTimeout) failed_bind)))])
  /\ (forall o, objsCh (set_timeoutCh TimerSpent (set_err (Some errRegistrationTimeout) failed_bind)) = true ->
       step calm hello 4242 (set_timeoutCh TimerSpent (set_err (Some errRegistrationTimeout) failed_bind)) (ObjectsReq o)
       = Next (set_timeoutCh TimerSpent (set_err (Some errRegistrationTimeout) failed_bind))
           [ObjectsDone o [] (err (set_timeoutCh TimerSpent (set_err (Some errRegistrationTimeout) failed_bind)))]).
Proof.
  apply (fatal_latch_sticky calm hello 4242 failed_bind [Timeout] _ []); reflexivity.
Defined.

(** C1, as stated, fails: the child reports that it could not bind, a first
    Call completes with that error; the registration timeout, which only a
    successful [ready] defuses, then replaces the stored error, and the
    next requests complete with the timeout error. *)
Lemma latched_error_replaced :
  snd <$> run calm hello 4242 (start 4242 true)
    [Line "pingoAbc12: fatal: err-connection-failed: Could not connect in 4 attemps, using unix protocol";
     CallReq 1; Timeout; CallReq 2; ObjectsReq 3]
  = Some [Kill 4242;
          CallDone 1 None
            (Some (ErrConnectionFailed
                     (New "Could not connect in 4 attemps, using unix protocol")));
          CallDone 2 None (Some errRegistrationTimeout);
          ObjectsDone 3 [] (Some errRegistrationTimeout)]
  /\ ErrConnectionFailed (New "Could not connect in 4 attemps, using unix protocol")
     <> errRegistrationTimeout.
Proof. split; [vm_compute; reflexivity | discriminate]. Qed.


(** *** Killing the child *)

Lemma handle_kills_app fx fx' :
  handle_kills (fx ++ fx') = (handle_kills fx + handle_kills fx')%nat.
Proof. unfold handle_kills. now rewrite List.filter_app, length_app. Qed.

Lemma kill_without_handle (c : ctrl) : proc c = None -> kill c = Some (tt, c, []).
Proof. intros H. unfold kill, mbind, Sup_bind, get. now rewrite H. Qed.

(** C6, as the code has it: the loop kills the child through its process
    handle at most once, whatever the events and the deadline tasks; once
    the handle is [nil] it stays so, and [kill] does nothing. The kill of a
    deadline task goes by the pid, not by the handle, and is not bounded
    by it. *)
Theorem kill_through_handle_at_most_once (w : World) (p : Plugin) (pid : Z)
    (s : system) (evs : list sys_event) (s' : system) (fx : list effect) :
  sys_run w p pid s evs = Some (s', fx) ->
  (handle_kills fx <= 1)%nat
  /\ (proc (sup s) = None -> handle_kills fx = 0%nat /\ proc (sup s') = None)
  /\ (proc (sup s') = None -> kill (sup s') = Some (tt, sup s', [])).
Proof.
  intros Hrun.
  assert (H : (handle_kills fx + budget (sup s') <= budget (sup s))%nat).
  { eapply (sys_run_respects (fun c fx c' => (handle_kills fx + budget c' <= budget c)%nat));
      try exact Hrun; clear; unfold budget.
    - intros c fx c' fx' c'' H1 H2. rewrite handle_kills_app. lia.
    - intros c c' _ ->. cbn. lia.
    - intros c e He. unfold handle_kills. cbn. rewrite He. cbn. lia.
    - intros c e. cbn. lia.
    - intros c. cbn. destruct (proc c); lia.
    - intros c k ->. cbn. lia. }
  unfold budget in H. split; [|split].
  - destruct (proc (sup s)); destruct (proc (sup s')); lia.
  - intros Hnone. rewrite Hnone in H. destruct (proc (sup s')); [lia|]. split; [lia|reflexivity].
  - apply kill_without_handle.
Qed.

Lemma kill_through_handle_at_most_once_witness :
  exists s' fx,
    sys_run calm hello 4242 (mkSystem (start 4242 true) [])
      [Select (KillReq 1); Select (KillReq 2); Select (WaitDone None)] = Some (s', fx)
    /\ fx = [Kill 4242; WaiterDone 2]
    /\ (handle_kills fx <= 1)%nat
    /\ (proc (sup (mkSystem (start 4242 true) [])) = None ->
        handle_kills fx = 0%nat /\ proc (sup s') = None)
    /\ (proc (sup s') = None -> kill (sup s') = Some (tt, sup s', [])).
Proof.
  eexists _, _. split; [reflexivity|]. split; [reflexivity|].
  apply (kill_through_handle_at_most_once calm hello 4242
           (mkSystem (start 4242 true) [])
           [Select (KillReq 1); Select (KillReq 2); Select (WaitDone None)]).
  reflexivity.
Defined.

(** C6, as stated, fails on the hung shutdown: the child ignores [Exit],
    the deadline task kills it by pid, and when the wait then reports the
    death of the child, [fatal] kills it again through the handle, which the
    deadline task has not cleared. *)
Lemma child_killed_twice :
  (fun r => List.filter is_kill (snd r)) <$>
    sys_run calm hello 4242 (mkSystem (start 4242 true) [])
      [Select (Line "pingoAbc12: objects: PingoRpc, Greeter");
       Select (Line "pingoAbc12: auth-token: s3cret");
       Select (Line "pingoAbc12: ready: proto=unix addr=/tmp/abcdefgh");
       Select (KillReq 1);
       DeadlineFires true;
       Select (WaitDone (Some (ExitError "signal: killed")))]
  = Some [PidKill 4242; Kill 4242].
Proof. vm_compute. reflexivity. Qed.


(** *** The ready message *)

Ltac sup_eval :=
  cbv [mbind Sup_bind mret Sup_ret get modify emit try skip fatal open close kill].

Lemma parseReady_accepts (n a : string) (c : ctrl) :
  n = "unix" \/ n = "tcp" ->
  parseReady ("proto=" +:+ n +:+ " addr=" +:+ a) c
  = Some (None, set_addr a (set_proto n c), []).
Proof.
  intros Hn. unfold parseReady.
  assert (Hspace : index_byte " " n = None) by (destruct Hn as [-> | ->]; reflexivity).
  rewrite (proj2 (HasPrefix_app _ "proto=")) by eauto. cbn [negb].
  change 6 with (len "proto="). rewrite slice_from_app.
  change (n +:+ " addr=" +:+ a) with (n +:+ String " " ("addr=" +:+ a)).
  assert (Hidx : IndexByte (n +:+ String " " ("addr=" +:+ a)) " " = len n).
  { unfold IndexByte. rewrite index_byte_app_skip by exact Hspace.
    cbn. unfold len. lia. }
  sup_eval. rewrite Hidx.
  replace (len n <? 0) with false by (symmetry; apply Z.ltb_ge; unfold len; lia).
  rewrite slice_prefix_app.
  replace (negb (String.eqb n "unix") && negb (String.eqb n "tcp")) with false
    by (destruct Hn as [-> | ->]; reflexivity).
  rewrite slice_from_app_plus by (unfold len; simpl; lia).
  change (drop (Z.to_nat 1) (String " " ("addr=" +:+ a))) with ("addr=" +:+ a).
  rewrite (proj2 (HasPrefix_app _ "addr=")) by eauto. cbn [negb].
  change 5 with (len "addr="). rewrite slice_from_app. reflexivity.
Qed.

(** [parseReady] never panics; it returns [nil] only on a value of the
    accepted form, and otherwise the invalid-message error, leaving the
    latched error and the process handle as they were. *)
Lemma parseReady_cases (v : string) (c : ctrl) :
  exists r c', parseReady v c = Some (r, c', [])
               /\ err c' = err c /\ proc c' = proc c
               /\ (r = None /\ ready_form v \/ r = Some errInvalidMessage).
Proof.
  unfold parseReady.
  destruct (HasPrefix v "proto=") eqn:Hproto; cbn [negb];
    [|sup_eval; eauto 10].
  apply HasPrefix_app in Hproto as [s1 ->].
  change 6 with (len "proto="). rewrite slice_from_app. sup_eval.
  destruct (IndexByte s1 " " <? 0) eqn:Hs; [eauto 10|].
  apply Z.ltb_ge in Hs. unfold IndexByte in *.
  destruct (index_byte " " s1) as [i|] eqn:Hi; [|lia].
  pose proof (index_byte_lt _ _ _ Hi) as Hlt.
  apply index_byte_Some in Hi as [Hs1 _].
  rewrite slice_prefix by (unfold len; lia). rewrite Nat2Z.id.
  destruct (negb (String.eqb (take i s1) "unix") && negb (String.eqb (take i s1) "tcp"))
    eqn:Hn; [eauto 10|].
  rewrite slice_from_Some by (unfold len; lia).
  replace (Z.to_nat (Z.of_nat i + 1)) with (S i) by lia.
  destruct (HasPrefix (drop (S i) s1) "addr=") eqn:Haddr; cbn [negb]; [|eauto 10].
  apply HasPrefix_app in Haddr as [a Ha].
  rewrite Ha. change 5 with (len "addr="). rewrite slice_from_app.
  do 2 eexists. split; [reflexivity|]. split; [reflexivity|]. split; [reflexivity|].
  left. split; [reflexivity|]. exists (take i s1), a. split.
  - apply andb_false_iff in Hn as [Hn|Hn]; apply negb_false_iff, String.eqb_eq in Hn; auto.
  - rewrite Hs1 at 1. now rewrite Ha.
Qed.

Lemma fatal_eval (e : error) (c : ctrl) :
  exists c' fx, fatal e c = Some (tt, c', fx)
                /\ err c' = Some e
                /\ (fx = [] \/ exists pid, fx = [Kill pid]).
Proof.
  sup_eval. cbn. destruct (proc c) as [pid|]; cbn;
    do 2 eexists; (split; [reflexivity|]); (split; [reflexivity|]); eauto.
Qed.

(** C3, as the code has it: the loop dials if and only if the value of the
    ready line is [proto=unix addr=A] or [proto=tcp addr=A] for some
    address [A], which may be empty; on every other value [parseReady]
    returns the invalid-message error, which is latched, and nothing is
    dialed. *)
Theorem ready_dials_iff_form (w : World) (p : Plugin) (v : string) (c : ctrl) :
  (ready_form v ->
   exists ok c' fx n a,
     ready w p v c = Some (ok, c', fx)
     /\ v = "proto=" +:+ n +:+ " addr=" +:+ a
     /\ In (Dial n a (initTimeout p)) fx)
  /\ (~ ready_form v ->
      exists c' fx,
        ready w p v c = Some (false, c', fx)
        /\ err c' = Some errInvalidMessage
        /\ forall n a t, ~ In (Dial n a t) fx).
Proof.
  split.
  - intros (n & a & Hn & ->). unfold ready.
    unfold mbind at 1, Sup_bind at 1. rewrite (parseReady_accepts n a c Hn).
    unfold dialAuthRpc. sup_eval. cbn [secret proto addr set_addr set_proto].
    destruct (DialTimeout w n a (initTimeout p)) as [e|];
      [|destruct (WriteString w _) as [e|]];
      cbn; repeat case_match; simplify_eq; cbn;
        do 5 eexists; (split; [reflexivity|]); (split; [reflexivity|]); cbn; auto.
  - intros Hform. unfold ready. unfold mbind at 1, Sup_bind at 1.
    destruct (parseReady_cases v c) as (r & c1 & -> & Herr & Hproc & [[_ H] | ->]);
      [contradiction|].
    destruct (fatal_eval errInvalidMessage c1) as (c2 & fx & Hf & Herr2 & Hfx).
    unfold mbind, Sup_bind. rewrite Hf. cbn.
    exists c2, fx. split; [now rewrite app_nil_r|]. split; [exact Herr2|].
    intros n a t. destruct Hfx as [-> | [k ->]]; cbn; intuition discriminate.
Qed.

Lemma ready_dials_iff_form_witness :
  (exists ok c' fx n a,
      ready calm hello "proto=tcp addr=127.0.0.1:1024" (start 4242 true) = Some (ok, c', fx)
      /\ "proto=tcp addr=127.0.0.1:1024" = "proto=" +:+ n +:+ " addr=" +:+ a
      /\ In (Dial n a (initTimeout hello)) fx)
  /\ (exists c' fx,
        ready calm hello "proto=sctp addr=x" (start 4242 true) = Some (false, c', fx)
        /\ err c' = Some errInvalidMessage
        /\ forall n a t, ~ In (Dial n a t) fx).
Proof.
  split.
  - apply (ready_dials_iff_form calm hello "proto=tcp addr=127.0.0.1:1024" (start 4242 true)).
    exists "tcp", "127.0.0.1:1024". split; [right|]; reflexivity.
  - apply (ready_dials_iff_form calm hello "proto=sctp addr=x" (start 4242 true)).
    intros (n & a & [-> | ->] & H); discriminate H.
Defined.

(** C3, as stated, fails on an empty address: [parseReady] returns [nil],
    the loop dials the empty address, and when the dial fails it is the
    error of the dial that is latched, not the invalid-message error. *)
Lemma empty_address_accepted :
  parseReady "proto=unix addr=" (start 4242 true)
  = Some (None, set_addr "" (set_proto "unix" (start 4242 true)), [])
  /\ (let refusing := mkWorld (fun _ a _ => if String.eqb a "" then Some (SysError "dial unix: missing address") else None)
                        (fun _ => None) (fun _ => None) in
      (fun r => (err (fst r), snd r)) <$>
        run refusing hello 4242 (start 4242 true) [Line "pingoAbc12: ready: proto=unix addr="]
      = Some (Some (SysError "dial unix: missing address"),
              [Dial "unix" "" 2000000000; Kill 4242])).
Proof. split; vm_compute; reflexivity. Qed.


(** *** Lines of the child *)

(** C4, as the code has it: [parse] gives a non-empty key only for a line
    that begins with the prefix (the two bytes that follow the prefix are
    skipped without being compared with the separator), and a line that
    does not begin with the prefix is printed as it is by the handler. *)
Theorem key_only_behind_prefix (w : World) (p : Plugin) (pid : Z)
    (c : ctrl) (line : string) :
  (forall key val,
      parse (meta p) line = Some (key, val) -> key <> "" ->
      exists rest, line = meta p +:+ rest)
  /\ (HasPrefix line (meta p) = false -> linesCh c = true ->
      parse (meta p) line = Some ("", "")
      /\ step w p pid c (Line line) = Next c [PrintLine line]).
Proof.
  split.
  - intros key val Hparse Hkey. apply HasPrefix_app.
    destruct (HasPrefix line (meta p)) eqn:Hpre; [reflexivity|].
    rewrite (parse_without_prefix _ _ Hpre) in Hparse. congruence.
  - intros Hpre Hlines. pose proof (parse_without_prefix _ _ Hpre) as Hparse.
    split; [exact Hparse|].
    cbn [step]. rewrite Hlines. unfold exec, on_line.
    unfold mbind at 1, Sup_bind at 1. rewrite Hparse. reflexivity.
Qed.

Lemma key_only_behind_prefix_witness :
  (exists rest, "pingoAbc12: auth-token: s3cret" = meta hello +:+ rest)
  /\ parse (meta hello) "listening on /tmp/abcdefgh" = Some ("", "")
  /\ step calm hello 4242 (start 4242 true) (Line "listening on /tmp/abcdefgh")
     = Next (start 4242 true) [PrintLine "listening on /tmp/abcdefgh"].
Proof.
  split.
  - apply (proj1 (key_only_behind_prefix calm hello 4242 (start 4242 true)
                    "pingoAbc12: auth-token: s3cret") "auth-token" "s3cret");
      [reflexivity | discriminate].
  - apply (proj2 (key_only_behind_prefix calm hello 4242 (start 4242 true)
                    "listening on /tmp/abcdefgh")); reflexivity.
Defined.

(** C4, as stated, fails: a line that has the prefix but not the separator
    behind it is read as a protocol message, here as a ready message on
    which the loop dials. *)
Lemma separator_not_checked :
  HasPrefix "pingoAbc12XYready: proto=tcp addr=127.0.0.1:1024" "pingoAbc12: " = false
  /\ parse "pingoAbc12" "pingoAbc12XYready: proto=tcp addr=127.0.0.1:1024"
     = Some ("ready", "proto=tcp addr=127.0.0.1:1024")
  /\ (fun r => snd r) <$>
       run calm hello 4242 (start 4242 true)
         [Line "pingoAbc12XYready: proto=tcp addr=127.0.0.1:1024"]
     = Some [Dial "tcp" "127.0.0.1:1024" 2000000000;
             Wrote ("Auth-Token: " +:+ String LF (String LF ""))].
Proof. repeat split; vm_compute; reflexivity. Qed.

(** C9, at inputs where it fails: [parse] panics on the line that is the
    prefix alone, on the prefix followed by one byte, and on a line whose
    key ends the line with its colon; the loop panics with it. *)
Theorem parse_panics_on_short_lines :
  parse "pingoAbc12" "pingoAbc12" = None
  /\ parse "pingoAbc12" "pingoAbc12:" = None
  /\ parse "pingoAbc12" "pingoAbc12: ready:" = None
  /\ step calm hello 4242 (start 4242 true) (Line "pingoAbc12") = Panicked
  /\ step calm hello 4242 (start 4242 true) (Line "pingoAbc12: ready:") = Panicked.
Proof. repeat split; vm_compute; reflexivity. Qed.

(** C8, at an input where it fails: [parseError] panics on a free text
    without separator, and so does the loop on such a fatal or error
    line. *)
Theorem parseError_panics_on_free_text :
  parseError "somefreeformtext" = None
  /\ step calm hello 4242 (start 4242 true) (Line "pingoAbc12: fatal: somefreeformtext")
     = Panicked
  /\ step calm hello 4242 (start 4242 true) (Line "pingoAbc12: error: somefreeformtext")
     = Panicked.
Proof. repeat split; vm_compute; reflexivity. Qed.


(** *** The list of objects *)

Lemma length_others (l : list string) :
  length l = (length (others l) + occurrences l)%nat.
Proof.
  unfold others, occurrences. induction l as [|o l IH]; [reflexivity|].
  cbn [List.filter]. destruct (String.eqb o internalObject); cbn [negb length]; lia.
Qed.

Lemma others_without_internal (l : list string) : ~ In internalObject (others l).
Proof.
  unfold others. intros [_ H]%List.filter_In.
  now rewrite eqb_refl in H.
Qed.

(** The loop, started behind the names [done] already copied with [m] free
    places left: it fills the places with the other names, and panics when
    there are more of them than places. *)
Lemma others_cons (o : string) (l : list string) :
  others (o :: l) = if String.eqb o internalObject then others l else o :: others l.
Proof. unfold others. cbn [List.filter]. now destruct (String.eqb o internalObject). Qed.

Lemma objects_loop_spec (rest : list string) : forall (done : list string) (m : nat),
    objects_loop rest (done ++ replicate m "") (length done)
    = if (length (others rest) <=? m)%nat
      then Some (done ++ others rest ++ replicate (m - length (others rest)) "")
      else None.
Proof.
  induction rest as [|o rest IH]; intros done m.
  - cbn. now rewrite Nat.sub_0_r.
  - cbn [objects_loop]. rewrite others_cons.
    destruct (String.eqb o internalObject) eqn:Ho; [apply IH|].
    rewrite length_app, length_replicate. destruct m as [|m].
    + replace (length done <? length done + 0)%nat with false
        by (symmetry; apply Nat.ltb_ge; lia).
      reflexivity.
    + replace (length done <? length done + S m)%nat with true
        by (symmetry; apply Nat.ltb_lt; lia).
      cbn [replicate]. rewrite <- (Nat.add_0_r (length done)) at 1.
      rewrite insert_app_r. cbn [insert list_insert].
      change (done ++ o :: replicate m "") with (done ++ [o] ++ replicate m "").
      rewrite (app_assoc done [o]).
      replace (S (length done)) with (length (done ++ [o]))
        by (rewrite length_app; cbn; lia).
      rewrite IH. cbn [length Nat.leb Nat.sub].
      destruct (length (others rest) <=? m)%nat; [|reflexivity].
      now rewrite <- app_assoc.
Qed.

(** [objects] returns exactly when the built-in name is stored, and then
    gives the other names followed by one empty string for each further
    occurrence of the built-in name. *)
Lemma objects_spec (c : ctrl) :
  objects c
  = if (1 <=? occurrences (objs c))%nat
    then Some (others (objs c) ++ replicate (occurrences (objs c) - 1) "")
    else None.
Proof.
  unfold objects. pose proof (length_others (objs c)) as Hlen.
  destruct (Z.of_nat (length (objs c)) - 1 <? 0) eqn:Hneg.
  - apply Z.ltb_lt in Hneg.
    replace (1 <=? occurrences (objs c))%nat with false
      by (symmetry; apply Nat.leb_gt; lia).
    reflexivity.
  - apply Z.ltb_ge in Hneg.
    pose proof (objects_loop_spec (objs c) [] (Z.to_nat (Z.of_nat (length (objs c)) - 1))) as H.
    cbn [app length] in H. rewrite H.
    destruct (1 <=? occurrences (objs c))%nat eqn:Hocc.
    + apply Nat.leb_le in Hocc.
      replace (length (others (objs c)) <=? Z.to_nat (Z.of_nat (length (objs c)) - 1))%nat
        with true by (symmetry; apply Nat.leb_le; lia).
      do 3 f_equal. lia.
    + apply Nat.leb_gt in Hocc.
      replace (length (others (objs c)) <=? Z.to_nat (Z.of_nat (length (objs c)) - 1))%nat
        with false by (symmetry; apply Nat.leb_gt; lia).
      reflexivity.
Qed.

(** Whatever [objects] returns, the built-in name is not in it. *)
Lemma objects_never_internal (c : ctrl) (l : list string) :
  objects c = Some l -> ~ In internalObject l.
Proof.
  rewrite objects_spec. destruct (1 <=? occurrences (objs c))%nat; [|discriminate].
  intros [= <-] [H|H]%in_app_or.
  - now apply others_without_internal in H.
  - apply list_elem_of_In, elem_of_replicate in H as [H _]. discriminate H.
Qed.

(** C5, as the code has it: when an Objects request is taken without a
    latched error and the stored list holds the built-in name exactly once,
    the list returned is the stored list without that name; it does not
    contain the built-in name. *)
Theorem objects_filtered (w : World) (p : Plugin) (pid : Z) (c : ctrl) (o : nat) :
  objsCh c = true -> err c = None -> occurrences (objs c) = 1%nat ->
  step w p pid c (ObjectsReq o) = Next c [ObjectsDone o (others (objs c)) None]
  /\ ~ In internalObject (others (objs c)).
Proof.
  intros Hch Herr Hocc. split; [|apply others_without_internal].
  cbn [step]. rewrite Hch. unfold exec, on_objects, mbind, Sup_bind, get, isFatal.
  rewrite Herr, objects_spec, Hocc. cbn. now rewrite app_nil_r.
Qed.

Lemma objects_filtered_witness :
  step calm hello 4242 serving (ObjectsReq 7)
  = Next serving [ObjectsDone 7 (others (objs serving)) None]
  /\ ~ In internalObject (others (objs serving)).
Proof. apply (objects_filtered calm hello 4242 serving 7); reflexivity. Defined.

(** C5, as stated, fails when the built-in name is stored twice (a child
    that registers a type of its own called [PingoRpc]): the list returned
    keeps an empty string in the place of the second occurrence. *)
Lemma objects_padded_with_empty_name :
  (fun r => last (snd r)) <$>
    run calm hello 4242 (start 4242 true)
      [Line "pingoAbc12: objects: PingoRpc, Greeter, PingoRpc";
       Line "pingoAbc12: auth-token: s3cret";
       Line "pingoAbc12: ready: proto=unix addr=/tmp/abcdefgh";
       ObjectsReq 1]
  = Some (Some (ObjectsDone 1 ["Greeter"; ""] None))
  /\ others ["PingoRpc"; "Greeter"; "PingoRpc"] = ["Greeter"]
  /\ ["Greeter"; ""] <> others ["PingoRpc"; "Greeter"; "PingoRpc"].
Proof. repeat split; try (vm_compute; reflexivity). discriminate. Qed.

(** An Objects request that is taken without a latched error is answered
    with what [objects] returns, and makes the loop panic when [objects]
    panics. *)
Lemma step_objects (w : World) (p : Plugin) (pid : Z) (c : ctrl) (o : nat) :
  objsCh c = true -> err c = None ->
  step w p pid c (ObjectsReq o)
  = match objects c with
    | Some l => Next c [ObjectsDone o l None]
    | None => Panicked
    end.
Proof.
  intros Hch Herr. cbn [step]. rewrite Hch.
  unfold exec, on_objects, mbind, Sup_bind, get, isFatal. rewrite Herr.
  now destruct (objects c).
Qed.

(** C10, as the code has it: [objects] is not total, and the condition
    under which it returns is that the stored list holds the built-in name
    at least once (so the list is not empty), not exactly once. With the
    name exactly once in a list that is not empty it returns the stored
    list without the name. An Objects request taken without a latched error
    makes the loop panic exactly when the stored list is without the
    built-in name, and is answered otherwise with a list of one place less
    than the stored list. On the empty list [objects] panics, and the loop
    reaches a state without latched error, open to Objects requests, with
    the empty list, when the child prints its ready line without an objects
    line before: the request then makes the loop panic. *)
Theorem objects_needs_the_internal_name :
  (forall c, is_Some (objects c) <-> (1 <= occurrences (objs c))%nat)
  /\ (forall c, objs c <> [] -> occurrences (objs c) = 1%nat ->
                objects c = Some (others (objs c)))
  /\ (forall w p pid c o, objsCh c = true -> err c = None ->
        (step w p pid c (ObjectsReq o) = Panicked <-> occurrences (objs c) = 0%nat)
        /\ ((1 <= occurrences (objs c))%nat ->
            exists l, step w p pid c (ObjectsReq o) = Next c [ObjectsDone o l None]
                      /\ length l = (length (objs c) - 1)%nat))
  /\ (forall c, objs c = [] -> objects c = None)
  /\ (exists c fx,
        run calm hello 4242 (start 4242 true)
          [Line "pingoAbc12: auth-token: s3cret";
           Line "pingoAbc12: ready: proto=unix addr=/tmp/abcdefgh"] = Some (c, fx)
        /\ err c = None /\ objsCh c = true /\ objs c = []
        /\ step calm hello 4242 c (ObjectsReq 1) = Panicked).
Proof.
  split; [|split; [|split; [|split]]].
  - intros c. rewrite objects_spec.
    destruct (1 <=? occurrences (objs c))%nat eqn:Hocc.
    + apply Nat.leb_le in Hocc. split; [intros _; exact Hocc | intros _; eauto].
    + apply Nat.leb_gt in Hocc. split; [intros [l Hl]; discriminate Hl | lia].
  - intros c _ Hocc. rewrite objects_spec, Hocc. cbn. now rewrite app_nil_r.
  - intros w p pid c o Hch Herr. rewrite (step_objects w p pid c o Hch Herr), objects_spec.
    pose proof (length_others (objs c)) as Hlen.
    destruct (1 <=? occurrences (objs c))%nat eqn:Hocc.
    + apply Nat.leb_le in Hocc. split; [split; [discriminate | lia]|].
      intros _. eexists. split; [reflexivity|].
      rewrite length_app, length_replicate. lia.
    + apply Nat.leb_gt in Hocc. split; [split; [lia | reflexivity] | lia].
  - intros c Hnil. rewrite objects_spec, Hnil. reflexivity.
  - eexists _, _. split; [vm_compute; reflexivity|]. repeat split.
Qed.

Lemma objects_needs_the_internal_name_witness :
  objects serving = Some (others (objs serving))
  /\ objects (start 4242 true) = None
  /\ (step calm hello 4242 serving (ObjectsReq 7) = Panicked
      <-> occurrences (objs serving) = 0%nat).
Proof.
  split; [|split].
  - apply (proj1 (proj2 objects_needs_the_internal_name) serving);
      [discriminate | reflexivity].
  - apply (proj1 (proj2 (proj2 (proj2 objects_needs_the_internal_name)))
             (start 4242 true)).
    reflexivity.
  - apply (proj1 (proj2 (proj2 objects_needs_the_internal_name))
             calm hello 4242 serving 7%nat); reflexivity.
Defined.

(** C10, as stated, fails in its condition: with the built-in name stored
    twice (a child that registers a type of its own called [PingoRpc]) the
    loop reaches a state without latched error, open to Objects requests,
    where [objects] returns and the request is answered, although the
    stored list does not hold the name exactly once. *)
Lemma objects_returns_with_name_twice :
  exists c fx,
    run calm hello 4242 (start 4242 true)
      [Line "pingoAbc12: objects: PingoRpc, PingoRpc";
       Line "pingoAbc12: auth-token: s3cret";
       Line "pingoAbc12: ready: proto=unix addr=/tmp/abcdefgh"] = Some (c, fx)
    /\ err c = None /\ objsCh c = true
    /\ objs c = ["PingoRpc"; "PingoRpc"]
    /\ occurrences (objs c) = 2%nat
    /\ objects c = Some [""]
    /\ step calm hello 4242 c (ObjectsReq 1) = Next c [ObjectsDone 1 [""] None].
Proof. eexists _, _. split; [vm_compute; reflexivity|]. repeat split. Qed.

End SupervisorFacts.

(** ** Splitting and joining *)

Module SplitFacts.
Import GoString GoStringFacts Utils Errors Server Notions.

(** A separator whose first byte does not occur in [e] is first found
    right behind [e]. *)
Lemma prefix_app (p t : string) : String.prefix p (p +:+ t) = true.
Proof. apply (HasPrefix_app (p +:+ t) p). eauto. Qed.

Lemma index_sub_behind (c : ascii) (sep' e rest : string) :
  index_byte c e = None ->
  index_sub (String c sep') (e +:+ String c sep' +:+ rest) = Some (String.length e).
Proof.
  intros He. induction e as [|d e IH].
  - rewrite append_nil. cbn [String.length].
    pose proof (prefix_app (String c sep') rest) as Hp.
    rewrite append_cons in *. cbn [index_sub]. now rewrite Hp.
  - rewrite append_cons. cbn [index_byte] in He.
    destruct (Ascii.eqb_spec d c) as [->|Hne]; [discriminate|].
    destruct (index_byte c e); [discriminate|].
    cbn [index_sub String.prefix]. destruct (ascii_dec c d); [congruence|].
    now rewrite IH.
Qed.

Lemma index_sub_absent (c : ascii) (sep' s : string) :
  index_byte c s = None -> index_sub (String c sep') s = None.
Proof.
  induction s as [|d s IH]; intros Hs; [reflexivity|].
  cbn [index_byte] in Hs.
  destruct (Ascii.eqb_spec d c) as [->|Hne]; [discriminate|].
  destruct (index_byte c s); [discriminate|].
  cbn [index_sub String.prefix]. destruct (ascii_dec c d); [congruence|].
  now rewrite IH.
Qed.

Lemma drop_behind (e sep rest : string) :
  drop (String.length e + String.length sep) (e +:+ sep +:+ rest) = rest.
Proof.
  rewrite <- append_assoc.
  replace (String.length e + String.length sep)%nat
    with (String.length (e +:+ sep) + 0)%nat by (rewrite length_append; lia).
  now rewrite drop_app_plus.
Qed.

(** [strings.SplitN(s, sep, 2)] cuts at the first separator only. *)
Lemma SplitN_behind (c : ascii) (sep' e rest : string) :
  index_byte c e = None ->
  SplitN (e +:+ String c sep' +:+ rest) (String c sep') 2 = [e; rest].
Proof.
  intros He. unfold SplitN.
  destruct (String.length (e +:+ String c sep' +:+ rest)) as [|n] eqn:Hlen.
  - rewrite !length_append in Hlen. cbn [String.length] in Hlen. lia.
  - cbn [Nat.pred genSplit]. rewrite index_sub_behind by exact He.
    rewrite take_app, drop_behind. now destruct n.
Qed.

Lemma length_Join (l : list string) (sep : string) :
  (String.length sep * (length l - 1) <= String.length (Join l sep))%nat.
Proof.
  induction l as [|e [|e' l] IH]; cbn [Join length] in *; try lia.
  rewrite !length_append. lia.
Qed.

Lemma genSplit_Join (c : ascii) (sep' : string) (l : list string) :
  l <> [] -> Forall (fun e => index_byte c e = None) l ->
  forall fuel cuts, (length l - 1 <= fuel)%nat -> (length l - 1 <= cuts)%nat ->
    genSplit fuel cuts (Join l (String c sep')) (String c sep') = l.
Proof.
  induction l as [|e [|e' l] IH]; intros Hne Hall fuel cuts Hfuel Hcuts; [congruence| |].
  - cbn [Join]. apply Forall_inv in Hall.
    destruct fuel, cuts; cbn [genSplit]; try reflexivity.
    now rewrite index_sub_absent.
  - cbn [length] in Hfuel, Hcuts.
    destruct fuel as [|fuel]; [lia|]. destruct cuts as [|cuts]; [lia|].
    change (Join (e :: e' :: l) (String c sep'))
      with (e +:+ String c sep' +:+ Join (e' :: l) (String c sep')).
    cbn [genSplit]. inversion Hall as [|? ? He Hall']; subst.
    rewrite index_sub_behind by exact He.
    rewrite take_app. rewrite <- append_assoc.
    replace (String.length e + String.length (String c sep'))%nat
      with (String.length (e +:+ String c sep') + 0)%nat
      by (rewrite length_append; lia).
    rewrite drop_app_plus. cbn [drop]. f_equal.
    apply IH; [discriminate | exact Hall' | cbn [length]; lia | cbn [length]; lia].
Qed.

(** [strings.Split] undoes [strings.Join] on a non-empty list of names in
    which the first byte of the separator does not occur. *)
Lemma Split_Join (c : ascii) (sep' : string) (l : list string) :
  l <> [] -> Forall (fun e => index_byte c e = None) l ->
  Split (Join l (String c sep')) (String c sep') = l.
Proof.
  intros Hne Hall. unfold Split.
  pose proof (length_Join l (String c sep')) as Hlen. cbn [String.length] in Hlen.
  apply genSplit_Join; auto; nia.
Qed.

(** On the empty list the round trip fails: the empty string splits into
    one empty name. *)
Example Split_Join_nil : Split (Join [] ", ") ", " = [""].
Proof. reflexivity. Qed.

End SplitFacts.

(** ** The secret and the authentication of a connection *)

Module AuthFacts.
Import GoString GoStringFacts Utils UtilsFacts Errors Server Notions SplitFacts.

(** Every index gives a byte of the alphabet: [randstr] never leaves it. *)
Lemma letter_at (i : nat) : is_letter (default "a"%char (String.get i _letters)) = true.
Proof. do 65 (destruct i as [|i]; [reflexivity|]). reflexivity. Qed.

Lemma randstr_spec (n : nat) (src : Source) (pos : nat) :
  String.length (fst (randstr n src pos)) = n
  /\ letters (fst (randstr n src pos))
  /\ snd (randstr n src pos) = (pos + n)%nat.
Proof.
  revert pos; induction n as [|n IH]; intros pos.
  - repeat split. cbn. lia.
  - cbn [randstr]. unfold Intn.
    destruct (IH (S pos)) as (Hlen & Hlet & Hpos).
    destruct (randstr n src (S pos)) as [rest pos'].
    cbn [fst snd] in *. subst pos'. repeat split.
    + cbn. now rewrite Hlen.
    + unfold letters in *. cbn [all_chars]. now rewrite letter_at, Hlet.
    + lia.
Qed.

(** X1. [randstr(n)] returns [n] bytes, all of the 64-byte alphabet, and
    takes exactly [n] draws from the random source. *)
Theorem randstr_letters (n : nat) (src : Source) (pos : nat) :
  String.length (fst (randstr n src pos)) = n
  /\ letters (fst (randstr n src pos))
  /\ snd (randstr n src pos) = (pos + n)%nat.
Proof. apply randstr_spec. Qed.

Lemma letters_no_byte (c : ascii) (s : string) :
  is_letter c = false -> letters s -> index_byte c s = None.
Proof.
  intros Hc. unfold letters. induction s as [|d s IH]; [reflexivity|].
  cbn [all_chars index_byte]. intros [Hd Hs]%andb_true_iff.
  destruct (Ascii.eqb_spec d c) as [->|Hne]; [congruence|].
  now rewrite IH.
Qed.

Lemma dropCR_without_CR (s : string) : index_byte CR s = None -> dropCR s = s.
Proof.
  induction s as [|c s IH]; [reflexivity|]. cbn [index_byte].
  destruct (Ascii.eqb c CR) eqn:Hc; [discriminate|].
  destruct (index_byte CR s) eqn:Hs; [discriminate|]. intros _.
  destruct s as [|d s]; cbn [dropCR]; [now rewrite Hc|].
  f_equal. now apply IH.
Qed.

(** The header reader on a first line without newline, closed by the blank
    line: it stops right behind the blank line. *)
Lemma readHeaders_loop_line (a rest buf : string) :
  index_byte LF a = None ->
  readHeaders_loop (a +:+ String LF (String LF rest)) buf false
  = inr (buf +:+ a +:+ String LF (String LF ""), rest).
Proof.
  revert buf; induction a as [|c a IH]; intros buf Ha.
  - rewrite append_nil. cbn [readHeaders_loop]. rewrite Ascii.eqb_refl.
    now rewrite append_assoc.
  - rewrite append_cons. cbn [index_byte] in Ha. cbn [readHeaders_loop].
    destruct (Ascii.eqb c LF); [discriminate|].
    destruct (index_byte LF a); [discriminate|].
    rewrite IH by reflexivity. now rewrite !append_assoc.
Qed.

(** The scanner on a line without newline, followed by its newline. *)
Lemma scan_line (a rest cur : string) :
  index_byte LF a = None ->
  scan (a +:+ String LF rest) cur
  = if len (cur +:+ a) <? MaxScanTokenSize
    then dropCR (cur +:+ a) :: scan rest ""
    else [].
Proof.
  revert cur; induction a as [|c a IH]; intros cur Ha.
  - rewrite append_nil. cbn [scan]. rewrite Ascii.eqb_refl.
    replace (cur +:+ "") with cur; [reflexivity|].
    clear. induction cur as [|c cur IH]; [reflexivity|]. now rewrite append_cons, <- IH.
  - rewrite append_cons. cbn [index_byte] in Ha. cbn [scan].
    destruct (Ascii.eqb c LF); [discriminate|].
    destruct (index_byte LF a); [discriminate|].
    rewrite IH by reflexivity. now rewrite !append_assoc.
Qed.

(** The header block of an authenticated connection is read as the one
    pair [Auth-Token], token. *)
Lemma parseHeaders_prologue (tok payload : string) :
  letters tok -> len tok < MaxScanTokenSize - 12 ->
  parseHeaders (prologue tok +:+ payload) ∅
  = Some (inr ({[ "Auth-Token" := tok ]}, payload)).
Proof.
  intros Hlet Hlen. unfold parseHeaders, readHeaders, prologue.
  assert (HLF : index_byte LF ("Auth-Token: " +:+ tok) = None).
  { rewrite index_byte_app_skip by reflexivity.
    now rewrite (letters_no_byte LF tok eq_refl Hlet). }
  assert (HCR : index_byte CR ("Auth-Token: " +:+ tok) = None).
  { rewrite index_byte_app_skip by reflexivity.
    now rewrite (letters_no_byte CR tok eq_refl Hlet). }
  replace (("Auth-Token: " +:+ tok +:+ String LF (String LF "")) +:+ payload)
    with (("Auth-Token: " +:+ tok) +:+ String LF (String LF payload))
    by (now rewrite !append_assoc).
  rewrite readHeaders_loop_line by exact HLF. rewrite append_nil.
  rewrite scan_line by exact HLF. rewrite append_nil.
  replace (len ("Auth-Token: " +:+ tok) <? MaxScanTokenSize) with true
    by (symmetry; apply Z.ltb_lt; unfold len in *; rewrite length_append;
        cbn [String.length]; unfold MaxScanTokenSize in *; lia).
  rewrite dropCR_without_CR by exact HCR.
  change (scan (String LF "") "") with [""].
  cbn [parseHeaders_loop]. unfold SplitN.
  rewrite length_append. cbn [String.length Nat.add Nat.pred genSplit].
  change ("Auth-Token: " +:+ tok) with ("Auth-Token" +:+ ": " +:+ tok).
  rewrite (index_sub_behind ":" " " "Auth-Token" tok eq_refl).
  rewrite take_app.
  replace (drop (String.length "Auth-Token" + String.length ": ") ("Auth-Token" +:+ ": " +:+ tok))
    with tok by reflexivity.
  destruct (String.length tok); reflexivity.
Qed.

Lemma serveConn_prologue_eq (r : rpcServer) (tok payload : string) (h : meta) :
  letters tok -> tok <> "" -> len tok < MaxScanTokenSize - 12 ->
  serveConn r (prologue tok +:+ payload) h
  = (if String.eqb tok (secret r) then [ServeConn payload; Close] else [Close], false).
Proof.
  intros Hlet Hne Hlen. unfold serveConn.
  rewrite parseHeaders_prologue by assumption.
  unfold map_get. rewrite lookup_singleton_eq.
  change (default "" (Some tok)) with tok.
  unfold authConn. rewrite (eqb_false _ _ Hne). cbn [negb andb].
  now destruct (String.eqb tok (secret r)).
Qed.

(** X2. A connection that opens with the header block of a token made of
    alphabet bytes is handed to the RPC server, with the bytes that follow
    the block, exactly when the token is the secret of the server;
    otherwise it is only closed. Nothing panics. *)
Theorem serveConn_prologue (r : rpcServer) (tok payload : string) (h : meta) :
  letters tok -> tok <> "" -> len tok < MaxScanTokenSize - 12 ->
  serveConn r (prologue tok +:+ payload) h
  = (if String.eqb tok (secret r) then [ServeConn payload; Close] else [Close], false).
Proof. apply serveConn_prologue_eq. Qed.

Lemma serveConn_prologue_witness :
  serveConn (sample "s3cret") (prologue "guess" +:+ "rpc bytes") "pingoAbc12"
  = (if String.eqb "guess" (secret (sample "s3cret"))
     then [ServeConn "rpc bytes"; Close] else [Close], false).
Proof.
  apply (serveConn_prologue (sample "s3cret") "guess" "rpc bytes" "pingoAbc12");
    [reflexivity | discriminate | reflexivity].
Defined.

(** X3. Whatever the random source, and whatever is registered later, a
    server made by [newRpcServer] accepts the header block of its own
    secret and serves the bytes that follow it. *)
Theorem new_server_accepts_own_secret (src : Source) (pos : nat) (c : config)
    (names : list string) (payload : string) (h : meta) :
  let r := foldl register (fst (newRpcServer src pos c)) names in
  serveConn r (prologue (secret r) +:+ payload) h = ([ServeConn payload; Close], false).
Proof.
  cbn zeta.
  assert (Hsecret : forall r0, secret (foldl register r0 names) = secret r0).
  { induction names as [|n names IH]; intros r0; [reflexivity|]. cbn [foldl]. now rewrite IH. }
  set (r := foldl register (fst (newRpcServer src pos c)) names).
  assert (Hr : secret r = fst (randstr 64 src pos)).
  { unfold r. rewrite Hsecret. unfold newRpcServer.
    destruct (randstr 64 src pos) as [s pos']. reflexivity. }
  destruct (randstr_spec 64 src pos) as (Hlen & Hlet & _).
  rewrite <- Hr in Hlen, Hlet.
  rewrite serveConn_prologue_eq.
  - now rewrite eqb_refl.
  - exact Hlet.
  - intros E. rewrite E in Hlen. discriminate.
  - unfold len. rewrite Hlen. reflexivity.
Qed.

(** *** The header reader on any stream *)

Lemma prefix_blank (c : ascii) (t : string) :
  String.prefix blank (String c t)
  = Ascii.eqb c LF && match t with String d _ => Ascii.eqb d LF | EmptyString => false end.
Proof.
  unfold blank. destruct t as [|d t]; cbn [String.prefix].
  - rewrite andb_false_r. now destruct (ascii_dec LF c).
  - destruct (Ascii.eqb_spec c LF) as [->|Hc], (Ascii.eqb_spec d LF) as [->|Hd];
      repeat destruct (ascii_dec _ _); cbn [andb]; try congruence; now destruct t.
Qed.

Lemma readHeaders_loop_spec (input : string) : forall buf,
    readHeaders_loop input buf false
    = match index_sub blank input with
      | Some i => inr (buf +:+ take (i + 2) input, drop (i + 2) input)
      | None => inl io_EOF
      end
    /\ readHeaders_loop input buf true
       = match input with
         | String c t =>
             if Ascii.eqb c LF then inr (buf +:+ String LF "", t)
             else match index_sub blank input with
                  | Some i => inr (buf +:+ take (i + 2) input, drop (i + 2) input)
                  | None => inl io_EOF
                  end
         | EmptyString => inl io_EOF
         end.
Proof.
  induction input as [|c t IH]; intros buf; [split; reflexivity|].
  assert (Hfalse : readHeaders_loop (String c t) buf false
                   = match index_sub blank (String c t) with
                     | Some i => inr (buf +:+ take (i + 2) (String c t), drop (i + 2) (String c t))
                     | None => inl io_EOF
                     end).
  { cbn [readHeaders_loop index_sub]. rewrite prefix_blank.
    destruct (Ascii.eqb_spec c LF) as [->|Hc]; cbn [andb].
    - destruct (IH (buf +:+ String LF "")) as [_ ->].
      destruct t as [|d t']; [reflexivity|].
      destruct (Ascii.eqb d LF) eqn:Hd.
      + apply Ascii.eqb_eq in Hd as ->. cbn [Nat.add take drop].
        now rewrite append_assoc.
      + destruct (index_sub blank (String d t')) as [i|]; [|reflexivity].
        cbn [fmap option_fmap option_map Nat.add take drop].
        now rewrite append_assoc.
    - destruct (IH (buf +:+ String c "")) as [-> _].
      destruct (index_sub blank t) as [i|]; [|reflexivity].
      cbn [fmap option_fmap option_map Nat.add take drop].
      now rewrite append_assoc. }
  split; [exact Hfalse|].
  destruct (Ascii.eqb c LF) eqn:Hc.
  - cbn [readHeaders_loop]. rewrite Hc.
    apply Ascii.eqb_eq in Hc as ->. reflexivity.
  - rewrite <- Hfalse. cbn [readHeaders_loop]. now rewrite Hc.
Qed.

Lemma readHeaders_cut (input : string) :
  readHeaders input
  = match index_sub blank input with
    | Some i => inr (take (i + 2) input, drop (i + 2) input)
    | None => inl io_EOF
    end.
Proof.
  unfold readHeaders. destruct (readHeaders_loop_spec input "") as [-> _].
  destruct (index_sub blank input); reflexivity.
Qed.

(** X4. [readHeaders] cuts the stream right behind its first blank line
    (two newlines in a row): the header block with the blank line, and the
    bytes that follow; a stream that ends without a blank line gives the
    read error. *)
Theorem readHeaders_first_blank_line (input : string) :
  readHeaders input
  = match index_sub blank input with
    | Some i => inr (take (i + 2) input, drop (i + 2) input)
    | None => inl io_EOF
    end.
Proof. apply readHeaders_cut. Qed.

(** X5. A stream that ends before a blank line is answered with one error
    line on the standard output and closed: nothing is parsed, nothing is
    served. *)
Theorem serveConn_without_blank_line (r : rpcServer) (input : string) (h : meta) :
  index_sub blank input = None ->
  serveConn r input h = ([Output (output h "error" "EOF"); Close], false).
Proof.
  intros Hblank. unfold serveConn, parseHeaders.
  now rewrite readHeaders_cut, Hblank.
Qed.

Lemma serveConn_without_blank_line_witness :
  serveConn (sample "s3cret") ("Auth-Token: s3cret" +:+ nl) "pingoAbc12"
  = ([Output (output "pingoAbc12" "error" "EOF"); Close], false).
Proof.
  apply (serveConn_without_blank_line (sample "s3cret") ("Auth-Token: s3cret" +:+ nl) "pingoAbc12").
  reflexivity.
Defined.

End AuthFacts.

(** ** The bind policy of the child *)

Module BindFacts.
Import GoString GoStringFacts Utils UtilsFacts Errors Server Notions AuthFacts.

Lemma wrap_int_small (z : Z) : 0 <= z < 2 ^ 63 -> wrap_int z = z.
Proof. intros H. unfold wrap_int. rewrite Z.mod_small; lia. Qed.

(** From its second call on, and on its first call from the zero value,
    [tcp.addr] gives the next port. *)
Lemma tcp_addr_next (k : nat) :
  (k < 1000)%nat ->
  tcp_addr (if (k =? 0)%nat then 0 else 1023 + Z.of_nat k)
  = (port k, 1023 + Z.of_nat (S k)).
Proof.
  intros Hk. unfold tcp_addr, port.
  destruct k as [|k]; cbn [Nat.eqb].
  - reflexivity.
  - replace (1023 + Z.of_nat (S k) <? 1024) with false by (symmetry; apply Z.ltb_ge; lia).
    rewrite wrap_int_small by lia.
    replace (1023 + Z.of_nat (S k) + 1) with (1024 + Z.of_nat (S k)) by lia.
    f_equal. lia.
Qed.

Section Loop.
Variable listen : nat -> string -> string -> option error.
Context {T : Type} `{connection T}.
(** The addresses that the connection gives, with its successive values
    and positions in the random source, up to a bound. *)
Variable bound : nat.
Variable f : nat -> string.
Variable st : nat -> T.
Variable ps : nat -> nat.
Hypothesis addr_at : forall k, (k < bound)%nat ->
    conn_addr (st k) (ps k) = (f k, st (S k), ps (S k)).

Lemma bind_loop_S (n i : nat) (conn : T) (pos : nat) (network a0 : string)
    (err : option error) (tried : list string) :
  bind_loop listen (S n) i conn pos network a0 err tried
  = let '(a, conn, pos) := conn_addr conn pos in
    match listen i network a with
    | None => (a, None, tried ++ [a], pos)
    | Some e => bind_loop listen n (S i) conn pos network a (Some e) (tried ++ [a])
    end.
Proof. reflexivity. Qed.

(** The retry loop stops at the first address on which [net.Listen]
    succeeds, after having tried the addresses before it in order, and
    gives up after the last attempt. *)
Lemma bind_loop_first_success (n : nat) :
  forall i j network a0 err tried a e tried' pos',
    (j + S n <= bound)%nat ->
    bind_loop listen (S n) i (st j) (ps j) network a0 err tried = (a, e, tried', pos') ->
    exists m,
      (1 <= m <= S n)%nat
      /\ tried' = tried ++ map f (seq j m)
      /\ (forall k, (k + 1 < m)%nat -> listen (i + k)%nat network (f (j + k)%nat) <> None)
      /\ a = f (j + m - 1)%nat
      /\ e = listen (i + m - 1)%nat network a
      /\ (e <> None -> m = S n)
      /\ pos' = ps (j + m)%nat.
Proof.
  induction n as [|n IH]; intros i j network a0 err tried a e tried' pos' Hb.
  - cbn [bind_loop]. rewrite addr_at by lia.
    destruct (listen i network (f j)) as [e0|] eqn:Hl; intros [= <- <- <- <-];
      exists 1%nat; replace (j + 1 - 1)%nat with j by lia;
        replace (i + 1 - 1)%nat with i by lia;
        replace (j + 1)%nat with (S j) by lia;
        (repeat split; try lia; auto; intros; lia).
  - rewrite bind_loop_S, addr_at by lia.
    destruct (listen i network (f j)) as [e0|] eqn:Hl.
    + intros Hloop.
      apply (IH (S i) (S j)) in Hloop as (m & Hm & Htried & Hfail & Ha & He & Hall & Hpos);
        [|lia].
      exists (S m). repeat split; try lia.
      * rewrite Htried, <- app_assoc. reflexivity.
      * intros k Hk. destruct k as [|k].
        -- rewrite !Nat.add_0_r, Hl. discriminate.
        -- replace (i + S k)%nat with (S i + k)%nat by lia.
           replace (j + S k)%nat with (S j + k)%nat by lia. apply Hfail. lia.
      * rewrite Ha. f_equal. lia.
      * rewrite He. f_equal. lia.
      * intros Hne. specialize (Hall Hne). lia.
      * rewrite Hpos. f_equal. lia.
    + intros [= <- <- <- <-]. exists 1%nat.
      replace (j + 1 - 1)%nat with j by lia. replace (i + 1 - 1)%nat with i by lia.
      replace (j + 1)%nat with (S j) by lia.
      repeat split; try lia; auto; try congruence.
Qed.
End Loop.

(** X6. With the tcp transport, [run] tries the ports 1024, 1025, ... of
    the loopback address in order, each once, stops at the first on which
    [net.Listen] succeeds and announces that one; after 500 failures it
    returns the last error. *)
Theorem run_tcp_ports (pathJoin : string -> string -> string) (fromSlash : string -> string)
    (src : Source) (listen : nat -> string -> string -> option error)
    (r : rpcServer) (pos : nat) :
  proto (conf r) = "tcp" ->
  let res := run pathJoin fromSlash src listen r pos in
  exists m,
    (1 <= m <= 500)%nat
    /\ attempts res = map port (seq 0 m)
    /\ (forall k, (k + 1 < m)%nat -> listen k "tcp" (port k) <> None)
    /\ addr (conf (server res)) = port (m - 1)
    /\ failure res = listen (m - 1)%nat "tcp" (port (m - 1))
    /\ (failure res <> None -> m = 500%nat).
Proof.
  intros Hproto. cbn zeta. unfold run. rewrite Hproto. cbn [String.eqb Ascii.eqb Bool.eqb].
  change (Z.to_nat (conn_retries (0 : tcp))) with (S 499).
  destruct (bind_loop listen (S 499) 0 (0 : tcp) pos "tcp" (addr (conf r)) None [])
    as [[[a e] tried] pos'] eqn:Hloop.
  pose proof (@bind_loop_first_success listen tcp tcp_connection 1000 port
                (fun k => if (k =? 0)%nat then 0 else 1023 + Z.of_nat k) (fun _ => pos)) as Hspec.
  eapply (Hspec) with (n := 499%nat) (j := 0%nat) in Hloop; [| |lia].
  - destruct Hloop as (m & Hm & Htried & Hfail & Ha & He & Hall & _).
    exists m. cbn [Nat.add] in *.
    destruct e as [e|]; cbn [attempts server failure conf addr set_conf];
      repeat split; try lia; auto; try congruence.
  - intros k Hk. cbn [conn_addr tcp_connection].
    rewrite tcp_addr_next by exact Hk.
    replace (S k =? 0)%nat with false by reflexivity. reflexivity.
Qed.

Lemma run_tcp_ports_witness :
  exists m,
    (1 <= m <= 500)%nat
    /\ attempts (run slashJoin id (fun _ => 0) (fun i _ _ => if (i <? 2)%nat then Some in_use else None)
                   (child "tcp" "") 0) = map port (seq 0 m)
    /\ (forall k, (k + 1 < m)%nat ->
                  (fun i (_ _ : string) => if (i <? 2)%nat then Some in_use else None) k "tcp" (port k) <> None)
    /\ addr (conf (server (run slashJoin id (fun _ => 0)
                             (fun i _ _ => if (i <? 2)%nat then Some in_use else None)
                             (child "tcp" "") 0))) = port (m - 1)
    /\ failure (run slashJoin id (fun _ => 0)
                  (fun i _ _ => if (i <? 2)%nat then Some in_use else None) (child "tcp" "") 0)
       = (fun i (_ _ : string) => if (i <? 2)%nat then Some in_use else None) (m - 1)%nat "tcp" (port (m - 1))
    /\ (failure (run slashJoin id (fun _ => 0)
                   (fun i _ _ => if (i <? 2)%nat then Some in_use else None) (child "tcp" "") 0)
        <> None -> m = 500%nat).
Proof.
  apply (run_tcp_ports slashJoin id (fun _ => 0)
           (fun i _ _ => if (i <? 2)%nat then Some in_use else None) (child "tcp" "") 0).
  reflexivity.
Defined.

(** X7. With any other transport setting, [run] uses the unix transport
    and tries at most 4 names, each made of the next 8 draws of the random
    source: 8 bytes of the alphabet, without directory, whatever
    [conf.unixdir] holds. It stops at the first name on which [net.Listen]
    succeeds and returns the last error after 4 failures. *)
Theorem run_unix_names (pathJoin : string -> string -> string) (fromSlash : string -> string)
    (src : Source) (listen : nat -> string -> string -> option error)
    (r : rpcServer) (pos : nat) :
  proto (conf r) <> "tcp" ->
  let res := run pathJoin fromSlash src listen r pos in
  let name k := fst (randstr 8 src (pos + 8 * k)) in
  exists m,
    (1 <= m <= 4)%nat
    /\ attempts res = map name (seq 0 m)
    /\ Forall (fun a => String.length a = 8%nat /\ letters a) (attempts res)
    /\ (forall k, (k + 1 < m)%nat -> listen k "unix" (name k) <> None)
    /\ proto (conf (server res)) = "unix"
    /\ addr (conf (server res)) = name (m - 1)%nat
    /\ failure res = listen (m - 1)%nat "unix" (name (m - 1)%nat)
    /\ (failure res <> None -> m = 4%nat).
Proof.
  intros Hproto. cbn zeta. unfold run.
  rewrite (eqb_false _ _ Hproto).
  change (Z.to_nat (conn_retries ("" : unix))) with (S 3).
  set (name := fun k => fst (randstr 8 src (pos + 8 * k))).
  destruct (bind_loop listen (S 3) 0 ("" : unix) pos "unix" (addr (conf r)) None [])
    as [[[a e] tried] pos'] eqn:Hloop.
  pose proof (@bind_loop_first_success listen unix (unix_connection pathJoin fromSlash src) 4 name
                (fun _ => "" : unix) (fun k => (pos + 8 * k)%nat)) as Hspec.
  replace pos with (pos + 8 * 0)%nat in Hloop at 1 by lia.
  eapply (Hspec) with (n := 3%nat) (j := 0%nat) in Hloop; [| |lia].
  - destruct Hloop as (m & Hm & Htried & Hfail & Ha & He & Hall & _).
    exists m. cbn [Nat.add app] in *. rewrite Ha in He.
    assert (Hnames : Forall (fun a => String.length a = 8%nat /\ letters a) tried).
    { rewrite Htried. apply Forall_map, Forall_forall. intros k _. unfold name.
      destruct (randstr_spec 8 src (pos + 8 * k)) as (? & ? & _). now split. }
    subst name. cbn beta in *.
    destruct e as [e|]; cbn [attempts server failure conf addr proto set_conf];
      repeat split; try lia; auto; try congruence.
  - intros k Hk. cbn [conn_addr unix_connection]. unfold unix_addr, name.
    destruct (randstr_spec 8 src (pos + 8 * k)) as (_ & _ & Hpos).
    destruct (randstr 8 src (pos + 8 * k)) as [nm pos2]. cbn [fst snd] in *.
    cbn [String.eqb negb]. subst pos2. f_equal. lia.
Qed.

Lemma run_unix_names_witness :
  exists m,
    (1 <= m <= 4)%nat
    /\ attempts (run slashJoin id (fun i => Z.of_nat i) (fun _ _ _ => None) (child "unix" "/var/run/pingo") 0)
       = map (fun k => fst (randstr 8 (fun i => Z.of_nat i) (0 + 8 * k))) (seq 0 m)
    /\ Forall (fun a => String.length a = 8%nat /\ letters a)
         (attempts (run slashJoin id (fun i => Z.of_nat i) (fun _ _ _ => None)
                      (child "unix" "/var/run/pingo") 0))
    /\ (forall k, (k + 1 < m)%nat ->
                  (fun (_ : nat) (_ _ : string) => @None error) k "unix"
                    (fst (randstr 8 (fun i => Z.of_nat i) (0 + 8 * k))) <> None)
    /\ proto (conf (server (run slashJoin id (fun i => Z.of_nat i) (fun _ _ _ => None)
                              (child "unix" "/var/run/pingo") 0))) = "unix"
    /\ addr (conf (server (run slashJoin id (fun i => Z.of_nat i) (fun _ _ _ => None)
                             (child "unix" "/var/run/pingo") 0)))
       = fst (randstr 8 (fun i => Z.of_nat i) (0 + 8 * (m - 1)))
    /\ failure (run slashJoin id (fun i => Z.of_nat i) (fun _ _ _ => None)
                  (child "unix" "/var/run/pingo") 0)
       = (fun (_ : nat) (_ _ : string) => @None error) (m - 1)%nat "unix"
           (fst (randstr 8 (fun i => Z.of_nat i) (0 + 8 * (m - 1))))
    /\ (failure (run slashJoin id (fun i => Z.of_nat i) (fun _ _ _ => None)
                   (child "unix" "/var/run/pingo") 0) <> None -> m = 4%nat).
Proof.
  apply (run_unix_names slashJoin id (fun i => Z.of_nat i) (fun _ _ _ => None)
           (child "unix" "/var/run/pingo") 0).
  discriminate.
Defined.

End BindFacts.

(** ** The handshake, from the child to the supervisor *)

Module HandshakeFacts.
Import GoString GoStringFacts Utils UtilsFacts Errors ErrorsFacts Supervisor Notions.
Import SplitFacts AuthFacts SupervisorFacts.

Lemma parseError_classified (code text : string) :
  code <> "" -> index_byte ":" code = None ->
  parseError (code +:+ ": " +:+ text)
  = Some (Some (if String.eqb code errorCodeConnFailed then ErrConnectionFailed (New text)
                else if String.eqb code errorCodeHttpServe then ErrHttpServe (New text)
                else New text)).
Proof.
  intros Hne Hcolon. unfold parseError.
  rewrite (SplitN_behind ":" " " code text Hcolon).
  cbn [lookup list_lookup mbind option_bind].
  rewrite (eqb_false _ _ Hne).
  repeat case_match; reflexivity.
Qed.

(** X8. An error line made of a code without colon, the separator and a
    text is read as an error carrying the whole text behind the first
    separator; the two codes of the package give their error types. *)
Theorem parseError_reads_code (code text : string) :
  code <> "" -> index_byte ":" code = None ->
  parseError (code +:+ ": " +:+ text)
  = Some (Some (if String.eqb code errorCodeConnFailed then ErrConnectionFailed (New text)
                else if String.eqb code errorCodeHttpServe then ErrHttpServe (New text)
                else New text)).
Proof. apply parseError_classified. Qed.



Lemma parseError_reads_code_witness :
  parseError ("err-http-serve" +:+ ": " +:+ "accept: too many open files")
  = Some (Some (if String.eqb "err-http-serve" errorCodeConnFailed
                then ErrConnectionFailed (New "accept: too many open files")
                else if String.eqb "err-http-serve" errorCodeHttpServe
                     then ErrHttpServe (New "accept: too many open files")
                     else New "accept: too many open files")).
Proof.
  apply (parseError_reads_code "err-http-serve" "accept: too many open files");
    [discriminate | reflexivity].
Defined.

Lemma bind_eval {A B} (m : Sup A) (f : A -> Sup B) (c : ctrl) a c' fx :
  m c = Some (a, c', fx) ->
  (m ≫= f) c = match f a c' with
               | Some (b, c'', fx') => Some (b, c'', fx ++ fx')
               | None => None
               end.
Proof. intros Hm. unfold mbind, Sup_bind. now rewrite Hm. Qed.

(** A ready value of the accepted form, with a dial and a write that
    succeed: the client is stored and the timeout defused. *)
Lemma ready_success (w : World) (p : Plugin) (n a : string) (c : ctrl) :
  n = "unix" \/ n = "tcp" ->
  DialTimeout w n a (initTimeout p) = None ->
  WriteString w ("Auth-Token: " +:+ secret c +:+ String LF (String LF "")) = None ->
  exists fx,
    ready w p ("proto=" +:+ n +:+ " addr=" +:+ a) c
    = Some (true,
            set_timeoutCh TimerNil
              (set_client (Some (mkClient n a)) (set_addr a (set_proto n c))), fx)
    /\ In (Wrote ("Auth-Token: " +:+ secret c +:+ String LF (String LF ""))) fx
    /\ (forall k, ~ In (Kill k) fx).
Proof.
  intros Hn Hdial Hwrite. unfold ready.
  rewrite (bind_eval _ _ _ _ _ _ (parseReady_accepts n a c Hn)).
  unfold dialAuthRpc. sup_eval. cbn [secret proto addr set_addr set_proto].
  rewrite Hdial, Hwrite.
  destruct (String.eqb n "unix"); [destruct (os_Remove w a)|];
    cbn; eexists; (split; [reflexivity|]); cbn; split; auto;
    intros k Hk; intuition discriminate.
Qed.

(** *** What the loop does with the lines that [meta.output] prints *)

Section Lines.
Variable w : World.
Variable p : Plugin.
Variable pid : Z.

Lemma step_line (c : ctrl) (key val : string) :
  linesCh c = true -> index_byte ":" key = None ->
  step w p pid c (Line (output (meta p) key val))
  = exec (on_line w p (output (meta p) key val)) c
    /\ parse (meta p) (output (meta p) key val) = Some (key, val).
Proof. intros Hl Hk. cbn [step]. rewrite Hl. split; [reflexivity | now apply parse_output]. Qed.

Lemma step_objects_line (c : ctrl) (val : string) :
  linesCh c = true ->
  step w p pid c (Line (output (meta p) "objects" val))
  = Next (set_objs (Split val ", ") c) [].
Proof.
  intros Hl. destruct (step_line c "objects" val Hl eq_refl) as [-> Hparse].
  unfold exec, on_line. unfold mbind at 1, Sup_bind at 1. rewrite Hparse. reflexivity.
Qed.

Lemma step_auth_line (c : ctrl) (val : string) :
  linesCh c = true ->
  step w p pid c (Line (output (meta p) "auth-token" val))
  = Next (set_secret val c) [].
Proof.
  intros Hl. destruct (step_line c "auth-token" val Hl eq_refl) as [-> Hparse].
  unfold exec, on_line. unfold mbind at 1, Sup_bind at 1. rewrite Hparse. reflexivity.
Qed.

Lemma step_ready_line (c : ctrl) (val : string) :
  linesCh c = true ->
  step w p pid c (Line (output (meta p) "ready" val))
  = exec (ready w p val ≫= λ ok : bool, if ok then open else skip) c.
Proof.
  intros Hl. destruct (step_line c "ready" val Hl eq_refl) as [-> Hparse].
  unfold exec, on_line. unfold mbind at 1, Sup_bind at 1. rewrite Hparse.
  unfold try. cbn [String.eqb Ascii.eqb Bool.eqb].
  now destruct ((ready w p val ≫= λ ok : bool, if ok then open else skip) c)
    as [[[[] c'] fx]|].
Qed.

Lemma step_fatal_line (c : ctrl) (val : string) :
  linesCh c = true ->
  step w p pid c (Line (output (meta p) "fatal" val))
  = exec (try (parseError val) ≫= λ e : option error,
            match e with Some e => fatal e | None => fatal (New val) end) c.
Proof.
  intros Hl. destruct (step_line c "fatal" val Hl eq_refl) as [-> Hparse].
  unfold exec, on_line. unfold mbind at 1, Sup_bind at 1. rewrite Hparse.
  unfold try at 1. cbn [String.eqb Ascii.eqb Bool.eqb].
  now destruct ((try (parseError val) ≫= λ e : option error,
                   match e with Some e => fatal e | None => fatal (New val) end) c)
    as [[[[] c'] fx]|].
Qed.
End Lines.


(** *** What the child prints *)

(** The lines of [rpcServer.run]: the objects line, then either the token
    and the ready line of the address it listens on, or the fatal line of
    the failed bind. The transport announced is always tcp or unix. *)
Lemma run_out (pathJoin : string -> string -> string) (fromSlash : string -> string)
    (src : Source) (listen : nat -> string -> string -> option error)
    (r : Server.rpcServer) (pos : nat) :
  let res := Server.run pathJoin fromSlash src listen r pos in
  let h := Server.prefix (Server.conf r) in
  let network := Server.proto (Server.conf (Server.server res)) in
  (network = "tcp" \/ network = "unix")
  /\ Server.out res
     = output h "objects" (Server.Join (Server.objs r) ", ")
       :: match Server.failure res with
          | None =>
              [output h "auth-token" (Server.secret r);
               output h "ready" ("proto=" +:+ network +:+ " addr="
                                 +:+ Server.addr (Server.conf (Server.server res)))]
          | Some _ =>
              [output h "fatal"
                 (errorCodeConnFailed +:+ ": " +:+ "Could not connect in "
                  +:+ (if String.eqb network "tcp" then "500" else "4")
                  +:+ " attemps, using " +:+ network +:+ " protocol")]
          end.
Proof.
  cbn zeta. unfold Server.run.
  destruct (String.eqb (Server.proto (Server.conf r)) "tcp");
    repeat case_match; simplify_eq; cbn; split; auto.
Qed.

Section Handshake.
Variable pathJoin : string -> string -> string.
Variable fromSlash : string -> string.
Variable src : Source.
Variable listen : nat -> string -> string -> option error.
Variable w : World.
Variable p : Plugin.
Variable pid : Z.

(** X9. The handshake of a child that could bind: when the supervisor
    reads the lines that [rpcServer.run] printed under its prefix and
    the dial and the write of the header succeed, it holds the names and
    the secret of the child, a client on the announced address, open
    request channels and a defused timeout; the header it wrote is the
    header block of the secret of the child. *)
Theorem handshake_reaches_serving (r : Server.rpcServer) (pos : nat) (c : ctrl) :
  let res := Server.run pathJoin fromSlash src listen r pos in
  let network := Server.proto (Server.conf (Server.server res)) in
  let a := Server.addr (Server.conf (Server.server res)) in
  Server.prefix (Server.conf r) = meta p ->
  Server.failure res = None ->
  Server.objs r <> [] -> Forall comma_free (Server.objs r) ->
  linesCh c = true ->
  DialTimeout w network a (initTimeout p) = None ->
  WriteString w (prologue (Server.secret r)) = None ->
  exists c' fx,
    run w p pid c (map Line (Server.out res)) = Some (c', fx)
    /\ objs c' = Server.objs r /\ secret c' = Server.secret r
    /\ proto c' = network /\ addr c' = a
    /\ client c' = Some (mkClient network a)
    /\ connCh c' = true /\ objsCh c' = true /\ timeoutCh c' = TimerNil
    /\ err c' = err c /\ proc c' = proc c
    /\ In (Wrote (prologue (Server.secret r))) fx
    /\ (forall k, ~ In (Kill k) fx).
Proof.
  cbn zeta. intros Hprefix Hok Hne Hnames Hlines Hdial Hwrite.
  destruct (run_out pathJoin fromSlash src listen r pos) as [Hnet Hout].
  cbn zeta in Hout. rewrite Hok, Hprefix in Hout. rewrite Hout. clear Hout.
  set (res := Server.run pathJoin fromSlash src listen r pos) in *.
  set (network := Server.proto (Server.conf (Server.server res))) in *.
  set (a := Server.addr (Server.conf (Server.server res))) in *.
  cbn [map run].
  rewrite step_objects_line by exact Hlines. cbn [mbind option_bind].
  rewrite (Split_Join "," " ") by assumption.
  rewrite step_auth_line by exact Hlines. cbn [mbind option_bind].
  set (c2 := set_secret (Server.secret r) (set_objs (Server.objs r) c)).
  rewrite step_ready_line by exact Hlines. unfold exec.
  destruct (ready_success w p network a c2) as (fx & Hready & Hwrote & Hkill);
    [tauto | exact Hdial | exact Hwrite |].
  rewrite (bind_eval _ _ _ _ _ _ Hready). cbn.
  do 2 eexists. split; [reflexivity|]. rewrite !app_nil_r.
  repeat split; auto.
Qed.

(** X10. The failure of a child that could not bind: when the supervisor
    reads the lines that [rpcServer.run] printed under its prefix, it
    latches the connection-failed error with the message of the child,
    kills the child through its handle if it has one, and opens the
    request channels so that callers get the error. *)
Theorem bind_failure_is_latched (r : Server.rpcServer) (pos : nat) (c : ctrl) :
  let res := Server.run pathJoin fromSlash src listen r pos in
  let network := Server.proto (Server.conf (Server.server res)) in
  Server.prefix (Server.conf r) = meta p ->
  Server.failure res <> None ->
  linesCh c = true ->
  exists c',
    run w p pid c (map Line (Server.out res))
    = Some (c', match proc c with Some k => [Kill k] | None => [] end)
    /\ err c' = Some (ErrConnectionFailed
                        (New ("Could not connect in "
                              +:+ (if String.eqb network "tcp" then "500" else "4")
                              +:+ " attemps, using " +:+ network +:+ " protocol")))
    /\ connCh c' = true /\ objsCh c' = true /\ proc c' = None
    /\ client c' = client c.
Proof.
  cbn zeta. intros Hprefix Hfail Hlines.
  destruct (run_out pathJoin fromSlash src listen r pos) as [Hnet Hout].
  cbn zeta in Hout. rewrite Hprefix in Hout.
  destruct (Server.failure (Server.run pathJoin fromSlash src listen r pos)) as [e|];
    [|congruence].
  rewrite Hout. clear Hout.
  set (network := Server.proto (Server.conf (Server.server
                    (Server.run pathJoin fromSlash src listen r pos)))) in *.
  set (text := "Could not connect in " +:+ (if String.eqb network "tcp" then "500" else "4")
               +:+ " attemps, using " +:+ network +:+ " protocol").
  cbn [map run].
  rewrite step_objects_line by exact Hlines. cbn [mbind option_bind].
  set (c1 := set_objs _ c).
  rewrite step_fatal_line by exact Hlines. unfold exec.
  unfold mbind at 1, Sup_bind at 1.
  rewrite (parseError_classified errorCodeConnFailed text) by (discriminate || reflexivity).
  unfold try. cbn [String.eqb Ascii.eqb Bool.eqb errorCodeConnFailed].
  sup_eval. cbn [proc c1 set_objs set_err set_connCh set_objsCh].
  destruct (proc c) as [k|] eqn:Hp; cbn; eexists; (split; [reflexivity|]); cbn;
    repeat split; auto.
Qed.
End Handshake.


Lemma handshake_reaches_serving_witness :
  exists c' fx,
    run calm hello 4242 (start 4242 true)
      (map Line (Server.out (Server.run slashJoin id (fun _ => 0) (fun _ _ _ => None)
                               (child "unix" "") 0))) = Some (c', fx)
    /\ objs c' = Server.objs (child "unix" "")
    /\ secret c' = Server.secret (child "unix" "")
    /\ proto c' = "unix" /\ addr c' = "aaaaaaaa"
    /\ client c' = Some (mkClient "unix" "aaaaaaaa")
    /\ connCh c' = true /\ objsCh c' = true /\ timeoutCh c' = TimerNil
    /\ err c' = err (start 4242 true) /\ proc c' = proc (start 4242 true)
    /\ In (Wrote (prologue (Server.secret (child "unix" "")))) fx
    /\ (forall k, ~ In (Kill k) fx).
Proof.
  apply (handshake_reaches_serving slashJoin id (fun _ => 0) (fun _ _ _ => None)
           calm hello 4242 (child "unix" "") 0 (start 4242 true));
    try reflexivity; [discriminate | repeat constructor].
Defined.

Lemma bind_failure_is_latched_witness :
  exists c',
    run calm hello 4242 (start 4242 true)
      (map Line (Server.out (Server.run slashJoin id (fun _ => 0) (fun _ _ _ => Some in_use)
                               (child "unix" "") 0)))
    = Some (c', match proc (start 4242 true) with Some k => [Kill k] | None => [] end)
    /\ err c' = Some (ErrConnectionFailed (New "Could not connect in 4 attemps, using unix protocol"))
    /\ connCh c' = true /\ objsCh c' = true /\ proc c' = None
    /\ client c' = client (start 4242 true).
Proof.
  apply (bind_failure_is_latched slashJoin id (fun _ => 0) (fun _ _ _ => Some in_use)
           calm hello 4242 (child "unix" "") 0 (start 4242 true));
    [reflexivity | discriminate | reflexivity].
Defined.

(** *** The names of the objects *)

Lemma others_registered (names : list string) :
  ~ In internalObject names ->
  others (internalObject :: names) = names /\ occurrences (internalObject :: names) = 1%nat.
Proof.
  intros Hnot. unfold others, occurrences. cbn [List.filter].
  rewrite eqb_refl. cbn [negb length].
  induction names as [|n names IH]; [split; reflexivity|].
  cbn [List.filter]. rewrite eqb_false by (intros ->; apply Hnot; now left).
  cbn [negb]. destruct IH as [-> H]; [intros Hin; apply Hnot; now right|].
  now split.
Qed.

(** The objects of a server made by [newRpcServer] and then given to
    [register]: the built-in name, then the names registered, in order. *)
Lemma registered_objs (src : Source) (pos : nat) (cfg : Server.config) (names : list string) :
  Server.objs (foldl Server.register (fst (Server.newRpcServer src pos cfg)) names)
  = internalObject :: names.
Proof.
  assert (Hobjs : forall r, Server.objs (foldl Server.register r names) = Server.objs r ++ names).
  { induction names as [|n names IH]; intros r; cbn [foldl].
    - now rewrite app_nil_r.
    - rewrite IH. cbn [Server.register Server.objs]. now rewrite <- app_assoc. }
  rewrite Hobjs. unfold Server.newRpcServer.
  now destruct (randstr 64 src pos).
Qed.

(** X11. The names round trip: for a child made by [newRpcServer] that has
    registered objects whose type names hold no comma and are not the
    built-in name, when the supervisor reads the objects line that
    [rpcServer.run] prints first, [objects] gives exactly the names
    registered, in the order of registration. *)
Theorem objects_round_trip (w : World) (p : Plugin) (pid : Z) (c : ctrl)
    (src : Source) (pos : nat) (cfg : Server.config) (names : list string) :
  Forall comma_free names -> ~ In internalObject names -> linesCh c = true ->
  let r := foldl Server.register (fst (Server.newRpcServer src pos cfg)) names in
  exists c',
    step w p pid c (Line (output (meta p) "objects" (Server.Join (Server.objs r) ", ")))
    = Next c' []
    /\ objs c' = internalObject :: names
    /\ objects c' = Some names.
Proof.
  intros Hnames Hnot Hlines. cbn zeta. rewrite registered_objs.
  rewrite step_objects_line by exact Hlines.
  rewrite (Split_Join "," " ");
    [|discriminate | constructor; [reflexivity | exact Hnames]].
  eexists. split; [reflexivity|]. split; [reflexivity|].
  rewrite objects_spec. cbn [objs set_objs].
  destruct (others_registered names Hnot) as [-> ->].
  cbn. now rewrite app_nil_r.
Qed.

Lemma objects_round_trip_witness :
  exists c',
    step calm hello 4242 (start 4242 true)
      (Line (output (meta hello) "objects"
               (Server.Join (Server.objs (foldl Server.register
                                            (fst (Server.newRpcServer (fun _ => 0) 0
                                                    (Server.mkConfig "unix" "" "pingoAbc12" "")))
                                            ["Greeter"; "Clock"])) ", ")))
    = Next c' []
    /\ objs c' = internalObject :: ["Greeter"; "Clock"]
    /\ objects c' = Some ["Greeter"; "Clock"].
Proof.
  apply (objects_round_trip calm hello 4242 (start 4242 true) (fun _ => 0) 0
           (Server.mkConfig "unix" "" "pingoAbc12" "") ["Greeter"; "Clock"]).
  - repeat constructor.
  - intros [H|[H|[]]]; discriminate H.
  - reflexivity.
Defined.

End HandshakeFacts.

(** ** Invariants of the event loop *)

Module LoopFacts.
Import GoString GoStringFacts Utils UtilsFacts Errors ErrorsFacts Supervisor Notions.
Import SupervisorFacts.

Ltac unfold_step :=
  unfold exec, on_timeout, on_call, on_objects, on_line, on_kill, on_wait, ready,
    dialAuthRpc, parseReady, isFatal;
  cbv [mbind Sup_bind mret Sup_ret get modify emit try skip fatal open close kill].

Ltac split_cases :=
  repeat (case_match; simplify_eq; try discriminate).

Section Loop.
Variable w : World.
Variable p : Plugin.
Variable pid : Z.

(** *** Admission of the requests *)

Lemma step_admits c ev c' fx :
  admits c -> step w p pid c ev = Next c' fx -> admits c' /\ Forall answered fx.
Proof.
  unfold admits. intros [Heq Hopen].
  destruct ev; cbn [step]; unfold_step; split_cases;
    intros; simplify_eq; cbn in *; try congruence;
    (split; [split | repeat (apply Forall_cons_2; [cbn|]); try apply Forall_nil_2]);
    try solve [intuition congruence];
    try solve [destruct (err c) eqn:?; destruct (client c) eqn:?; intuition congruence].
Qed.

Lemma run_admits evs : forall c c' fx,
    admits c -> run w p pid c evs = Some (c', fx) -> admits c' /\ Forall answered fx.
Proof.
  induction evs as [|ev evs IH]; intros c c' fx Hc; cbn [run].
  - intros [= <- <-]. split; [exact Hc | constructor].
  - destruct (step w p pid c ev) as [c1 fx1| | |] eqn:Hstep; try discriminate.
    cbn [mbind option_bind].
    destruct (run w p pid c1 evs) as [[c2 fx2]|] eqn:Hrun; [|discriminate].
    cbn. intros [= <- <-].
    destruct (step_admits _ _ _ _ Hc Hstep) as [Hc1 Hfx1].
    destruct (IH _ _ _ Hc1 Hrun) as [Hc2 Hfx2].
    split; [exact Hc2 | now apply Forall_app].
Qed.

(** *** The client that callers receive *)

Lemma step_client c ev c' fx :
  step w p pid c ev = Next c' fx ->
  (forall cl, client c' = Some cl -> client c = Some cl \/ dialed cl fx)
  /\ (forall r cl er, In (CallDone r cl er) fx ->
                      fx = [CallDone r cl er] /\ (cl = None \/ cl = client c)).
Proof.
  unfold dialed.
  destruct ev; cbn [step]; unfold_step; split_cases;
    intros; simplify_eq; cbn in *; try congruence;
    (split; [intros cl Hcl; simplify_eq; auto | intros r' cl er Hin]);
    try solve [intuition (simplify_eq; auto)];
    try solve [right; cbn; split; eexists; eauto 6].
Qed.

Lemma run_client evs : forall c c' fx pre,
    (forall cl, client c = Some cl -> dialed cl pre) ->
    run w p pid c evs = Some (c', fx) ->
    (forall cl, client c' = Some cl -> dialed cl (pre ++ fx))
    /\ (forall fx1 r cl er fx2,
           fx = fx1 ++ CallDone r (Some cl) er :: fx2 -> dialed cl (pre ++ fx1)).
Proof.
  assert (Hmono : forall cl fx1 fx2, dialed cl fx1 -> dialed cl (fx1 ++ fx2)).
  { intros cl fx1 fx2 [[t Ht] [d Hd]]. split; eexists; apply in_or_app; left; eauto. }
  induction evs as [|ev evs IH]; intros c c' fx pre Hc; cbn [run].
  - intros [= <- <-]. rewrite app_nil_r. split; [exact Hc|].
    intros fx1 r cl er fx2 Hnil. now destruct fx1.
  - destruct (step w p pid c ev) as [c1 fx1| | |] eqn:Hstep; try discriminate.
    cbn [mbind option_bind].
    destruct (run w p pid c1 evs) as [[c2 fx2]|] eqn:Hrun; [|discriminate].
    cbn. intros [= <- <-].
    destruct (step_client _ _ _ _ Hstep) as [Hnew Hcall].
    assert (Hc1 : forall cl, client c1 = Some cl -> dialed cl (pre ++ fx1)).
    { intros cl Hcl. destruct (Hnew cl Hcl) as [Hold|[[t Ht] [d Hd]]].
      - apply Hmono, Hc, Hold.
      - split; eexists; apply in_or_app; right; eauto. }
    destruct (IH _ _ _ _ Hc1 Hrun) as [Hc2 Hlater].
    split; [now rewrite app_assoc|].
    intros g1 r cl er g2 Hsplit.
    apply List.app_eq_app in Hsplit as [l [[Hfx1 Hrest]|[-> ->]]].
    + destruct l as [|e l]; cbn in Hrest.
      * rewrite app_nil_r in Hfx1. subst g1.
        rewrite <- (app_nil_r ((pre ++ fx1))). eapply Hlater. now rewrite <- Hrest.
      * injection Hrest as <- Hfx2.
        destruct (Hcall r (Some cl) er) as [Hone [Hcl|Hcl]];
          [rewrite Hfx1; apply in_or_app; right; now left | discriminate |].
        rewrite Hone in Hfx1. destruct g1 as [|e1 g1].
        -- rewrite app_nil_r. apply Hc. now rewrite Hcl.
        -- cbn in Hfx1. injection Hfx1 as _ Hnil. now destruct g1.
    + rewrite app_assoc. eapply Hlater. reflexivity.
Qed.

(** *** The registration timeout *)

Lemma step_timeout c ev c' fx :
  timeoutCh c <> TimerArmed -> step w p pid c ev = Next c' fx ->
  ev <> Timeout /\ timeoutCh c' <> TimerArmed.
Proof.
  intros Harmed.
  destruct ev; cbn [step]; unfold_step; split_cases;
    intros; simplify_eq; cbn in *; try congruence; split; congruence.
Qed.

Lemma step_timeout_fires c c' fx :
  step w p pid c Timeout = Next c' fx -> timeoutCh c' <> TimerArmed.
Proof.
  cbn [step]; unfold_step; split_cases; intros; simplify_eq; cbn; congruence.
Qed.

Lemma run_timeout evs : forall c c' fx,
    timeoutCh c <> TimerArmed -> run w p pid c evs = Some (c', fx) ->
    ~ In Timeout evs /\ timeoutCh c' <> TimerArmed.
Proof.
  induction evs as [|ev evs IH]; intros c c' fx Hc; cbn [run].
  - intros [= <- <-]. split; [intros [] | exact Hc].
  - destruct (step w p pid c ev) as [c1 fx1| | |] eqn:Hstep; try discriminate.
    cbn [mbind option_bind].
    destruct (run w p pid c1 evs) as [[c2 fx2]|] eqn:Hrun; [|discriminate].
    cbn. intros [= <- <-].
    destruct (step_timeout _ _ _ _ Hc Hstep) as [Hev Hc1].
    destruct (IH _ _ _ Hc1 Hrun) as [Hnot Hc2].
    split; [|exact Hc2]. intros [Heq|Hin]; [congruence | contradiction].
Qed.

Lemma run_app evs1 : forall evs2 c c' fx,
    run w p pid c (evs1 ++ evs2) = Some (c', fx) ->
    exists c1 fx1 fx2,
      run w p pid c evs1 = Some (c1, fx1)
      /\ run w p pid c1 evs2 = Some (c', fx2) /\ fx = fx1 ++ fx2.
Proof.
  induction evs1 as [|ev evs1 IH]; intros evs2 c c' fx; cbn [app run].
  - intros Hrun. exists c, [], fx. auto.
  - destruct (step w p pid c ev) as [c1 fx1| | |] eqn:Hstep; try discriminate.
    cbn [mbind option_bind].
    destruct (run w p pid c1 (evs1 ++ evs2)) as [[c2 fx2]|] eqn:Hrun; [|discriminate].
    cbn. intros [= <- <-].
    destruct (IH _ _ _ _ Hrun) as (c3 & g1 & g2 & -> & Hrest & ->).
    cbn. exists c3, (fx1 ++ g1), g2. split; [reflexivity|]. split; [exact Hrest|].
    now rewrite app_assoc.
Qed.

(** *** The waiters of the kill requests *)

Lemma step_waiters c ev c' fx :
  step w p pid c ev = Next c' fx ->
  match ev with
  | KillReq wr =>
      if waitCh c then dones fx = [] /\ over c' = Some wr /\ waitCh c' = true
      else dones fx = [wr] /\ over c' = over c /\ waitCh c' = false
  | WaitDone _ =>
      waitCh c = true /\ waitCh c' = false /\ dones fx = option_list (over c)
  | _ => dones fx = [] /\ over c' = over c /\ waitCh c' = waitCh c
  end.
Proof.
  destruct ev; cbn [step]; unfold_step; split_cases;
    intros; simplify_eq; cbn in *; try congruence; auto;
    repeat split; auto;
    match goal with H : over ?c = _ |- context [over ?c] => now rewrite H end.
Qed.

Lemma dones_app fx1 fx2 : dones (fx1 ++ fx2) = dones fx1 ++ dones fx2.
Proof. apply omap_app. Qed.

Lemma stops_cons ev evs :
  stops (ev :: evs) = match ev with KillReq wr => wr :: stops evs | _ => stops evs end.
Proof. now destruct ev. Qed.

Lemma run_cons c ev evs c' fx :
  run w p pid c (ev :: evs) = Some (c', fx) ->
  exists c1 fx1 fx2,
    step w p pid c ev = Next c1 fx1 /\ run w p pid c1 evs = Some (c', fx2)
    /\ fx = fx1 ++ fx2.
Proof.
  cbn [run]. destruct (step w p pid c ev) as [c1 fx1| | |] eqn:Hstep; try discriminate.
  cbn [mbind option_bind].
  destruct (run w p pid c1 evs) as [[c2 fx2]|] eqn:Hrun; [|discriminate].
  cbn. intros [= <- <-]. now exists c1, fx1, fx2.
Qed.

(** Once the wait has returned, every kill request is signalled at once,
    and the wait is not taken again. *)
Lemma run_after_wait evs : forall c c' fx,
    waitCh c = false -> run w p pid c evs = Some (c', fx) ->
    dones fx = stops evs /\ (forall e, ~ In (WaitDone e) evs).
Proof.
  induction evs as [|ev evs IH]; intros c c' fx Hc.
  - cbn [run]. intros [= <- <-]. split; [reflexivity | intros e []].
  - intros (c1 & fx1 & fx2 & Hstep & Hrun & ->)%run_cons.
    rewrite dones_app, stops_cons.
    pose proof (step_waiters _ _ _ _ Hstep) as Hw.
    destruct ev; try (destruct Hw as [Hw _]; congruence);
      rewrite Hc in Hw; destruct Hw as (Hd & _ & Hc1);
      destruct (IH _ _ _ Hc1 Hrun) as [Hrest Hno];
      rewrite Hd, Hrest; (split; [reflexivity|]);
      intros e0 [Heq|Hin]; solve [discriminate Heq | exact (Hno _ Hin)].
Qed.

Lemma pending_cons before wr wrs : pending before (wr :: wrs) = pending (Some wr) wrs.
Proof.
  unfold pending. destruct wrs as [|x wrs]; [reflexivity|].
  change (last (wr :: x :: wrs)) with (last (x :: wrs)).
  destruct (last (x :: wrs)) eqn:E; [reflexivity|].
  apply last_None in E. discriminate E.
Qed.

Lemma run_until_wait pre : forall e post c c' fx,
    run w p pid c (pre ++ WaitDone e :: post) = Some (c', fx) ->
    dones fx = option_list (pending (over c) (stops pre)) ++ stops post.
Proof.
  induction pre as [|ev pre IH]; intros e post c c' fx; cbn [app];
    intros (c1 & fx1 & fx2 & Hstep & Hrun & ->)%run_cons;
    rewrite dones_app; pose proof (step_waiters _ _ _ _ Hstep) as Hw.
  - destruct Hw as (_ & Hc1 & Hd).
    destruct (run_after_wait _ _ _ _ Hc1 Hrun) as [Hrest _].
    now rewrite Hd, Hrest.
  - assert (Hlive : waitCh c1 = true).
    { destruct (waitCh c1) eqn:Hc1; [reflexivity|].
      destruct (run_after_wait _ _ _ _ Hc1 Hrun) as [_ Hno].
      exfalso. apply (Hno e). apply in_or_app. right. now left. }
    rewrite (IH _ _ _ _ _ Hrun), stops_cons.
    destruct ev.
    1-4, 7: destruct Hw as (-> & -> & _); reflexivity.
    + destruct (waitCh c); destruct Hw as (Hd & Hover & Hc1); [|congruence].
      now rewrite Hd, Hover, pending_cons.
    + destruct Hw as (_ & Hc1 & _). congruence.
Qed.

Lemma run_before_wait evs : forall c c' fx,
    waitCh c = true -> (forall e, ~ In (WaitDone e) evs) ->
    run w p pid c evs = Some (c', fx) ->
    dones fx = [] /\ waitCh c' = true /\ over c' = pending (over c) (stops evs).
Proof.
  induction evs as [|ev evs IH]; intros c c' fx Hc Hno.
  - cbn [run]. intros [= <- <-]. auto.
  - intros (c1 & fx1 & fx2 & Hstep & Hrun & ->)%run_cons.
    rewrite dones_app, stops_cons.
    pose proof (step_waiters _ _ _ _ Hstep) as Hw.
    assert (Hno' : forall e, ~ In (WaitDone e) evs)
      by (intros e0 Hin; apply (Hno e0); now right).
    destruct ev.
    1-4, 7: destruct Hw as (Hd & Hover & Hc1); rewrite Hc in Hc1;
      destruct (IH _ _ _ Hc1 Hno' Hrun) as (Hd2 & Hc2 & Hover2);
      now rewrite Hd, Hd2, Hover2, Hover.
    + rewrite Hc in Hw. destruct Hw as (Hd & Hover & Hc1).
      destruct (IH _ _ _ Hc1 Hno' Hrun) as (Hd2 & Hc2 & Hover2).
      now rewrite Hd, Hd2, Hover2, Hover, pending_cons.
    + exfalso. apply (Hno e). now left.
Qed.
End Loop.

(** X12. From the start of the loop, whatever the events and the answers
    of the outside, every Call is answered either with a client and no
    error or with an error and no client, so that [Plugin.Call] never calls
    through a nil client; and the request channels are open only while an
    error is latched or a client is held. *)
Theorem calls_answered_with_client_or_error (w : World) (p : Plugin) (pid : Z)
    (found : bool) (evs : list event) (c : ctrl) (fx : list effect) :
  run w p pid (start pid found) evs = Some (c, fx) ->
  Forall answered fx /\ admits c.
Proof.
  intros Hrun. apply and_comm. eapply run_admits; [|exact Hrun].
  split; [reflexivity | discriminate].
Qed.

Lemma calls_answered_with_client_or_error_witness :
  exists c fx,
    run calm hello 4242 (start 4242 true)
      [Line "pingoAbc12: ready: proto=tcp addr=127.0.0.1:1024"; CallReq 1;
       Line "pingoAbc12: fatal: err-http-serve: accept"; CallReq 2] = Some (c, fx)
    /\ Forall answered fx /\ admits c.
Proof.
  eexists _, _. split; [vm_compute; reflexivity|].
  apply (calls_answered_with_client_or_error calm hello 4242 true
           [Line "pingoAbc12: ready: proto=tcp addr=127.0.0.1:1024"; CallReq 1;
            Line "pingoAbc12: fatal: err-http-serve: accept"; CallReq 2]).
  vm_compute. reflexivity.
Defined.


(** X13. A Call is answered with a client only after that client's address
    was dialed and the authentication header written: in every trace of the
    loop from its start, the answer of a Call that carries a client comes
    behind the dial of the network and address of that client and behind a
    write of the header. *)
Theorem client_only_after_authenticated_dial (w : World) (p : Plugin) (pid : Z)
    (found : bool) (evs : list event) (c : ctrl)
    (fx1 fx2 : list effect) (r : nat) (cl : Client) (er : option error) :
  run w p pid (start pid found) evs = Some (c, fx1 ++ CallDone r (Some cl) er :: fx2) ->
  dialed cl fx1.
Proof.
  intros Hrun.
  eapply (run_client w p pid evs (start pid found) c _ []) in Hrun as [_ H];
    [|discriminate].
  now apply (H fx1 r cl er fx2).
Qed.

Lemma client_only_after_authenticated_dial_witness :
  dialed (mkClient "tcp" "127.0.0.1:1024")
    [Dial "tcp" "127.0.0.1:1024" 2000000000;
     Wrote ("Auth-Token: s3cret" +:+ String LF (String LF ""))].
Proof.
  apply (client_only_after_authenticated_dial calm hello 4242 true
           [Line "pingoAbc12: auth-token: s3cret";
            Line "pingoAbc12: ready: proto=tcp addr=127.0.0.1:1024"; CallReq 1]
           (set_timeoutCh TimerNil
              (set_client (Some (mkClient "tcp" "127.0.0.1:1024"))
                 (set_objsCh true (set_connCh true
                    (set_addr "127.0.0.1:1024" (set_proto "tcp"
                       (set_secret "s3cret" (start 4242 true))))))))
           _ [] 1 (mkClient "tcp" "127.0.0.1:1024") None).
  vm_compute. reflexivity.
Defined.

(** X14. The registration timeout is never armed again: from a state in
    which it is defused (as after a successful ready) or has fired, no
    sequence of events that the loop takes contains the timeout, and the
    timer stays off. *)
Theorem timeout_never_rearmed (w : World) (p : Plugin) (pid : Z)
    (c : ctrl) (evs : list event) (c' : ctrl) (fx : list effect) :
  timeoutCh c <> TimerArmed ->
  run w p pid c evs = Some (c', fx) ->
  ~ In Timeout evs /\ timeoutCh c' <> TimerArmed.
Proof. apply run_timeout. Qed.

Lemma timeout_never_rearmed_witness :
  exists c' fx,
    run calm hello 4242 serving [CallReq 1; KillReq 2; WaitDone None] = Some (c', fx)
    /\ ~ In Timeout [CallReq 1; KillReq 2; WaitDone None] /\ timeoutCh c' <> TimerArmed.
Proof.
  eexists _, _. split; [vm_compute; reflexivity|].
  eapply (timeout_never_rearmed calm hello 4242 serving [CallReq 1; KillReq 2; WaitDone None]);
    [discriminate | vm_compute; reflexivity].
Defined.

(** X15. The registration timeout is taken at most once in the life of the
    loop: no sequence of events that the loop takes holds a second
    timeout behind a first one. *)
Theorem timeout_at_most_once (w : World) (p : Plugin) (pid : Z)
    (c : ctrl) (pre post : list event) (c' : ctrl) (fx : list effect) :
  run w p pid c (pre ++ Timeout :: post) = Some (c', fx) -> ~ In Timeout post.
Proof.
  intros Hrun. apply run_app in Hrun as (c1 & fx1 & fx2 & _ & Hrest & _).
  cbn [run] in Hrest.
  destruct (step w p pid c1 Timeout) as [c2 g| | |] eqn:Hstep; try discriminate.
  cbn [mbind option_bind] in Hrest.
  destruct (run w p pid c2 post) as [[c3 g3]|] eqn:Hpost; [|discriminate].
  apply step_timeout_fires in Hstep.
  now destruct (run_timeout w p pid post c2 c3 g3 Hstep Hpost).
Qed.

Lemma timeout_at_most_once_witness : ~ In Timeout [CallReq 1; KillReq 2].
Proof.
  apply (timeout_at_most_once calm hello 4242 (start 4242 true)
           [Line "pingoAbc12: hello"] [CallReq 1; KillReq 2]
           (set_over (Some 2%nat) (set_timeoutCh TimerSpent
              (set_err (Some errRegistrationTimeout) (set_proc None (start 4242 true)))))
           [PrintLine "pingoAbc12: hello"; Kill 4242;
            CallDone 1 None (Some errRegistrationTimeout)]).
  vm_compute. reflexivity.
Defined.


(** X17. The waiters that the loop signals when the wait of the child
    returns: the kill request that is pending at that moment, which is the
    latest one (an earlier one still pending is never signalled), then
    every later kill request, each at once and in order. Every waiter
    signalled is signalled once. *)
Theorem waiters_signalled (w : World) (p : Plugin) (pid : Z) (c : ctrl)
    (pre post : list event) (e : option error) (c' : ctrl) (fx : list effect) :
  run w p pid c (pre ++ WaitDone e :: post) = Some (c', fx) ->
  dones fx = option_list (pending (over c) (stops pre)) ++ stops post.
Proof. apply run_until_wait. Qed.

Lemma waiters_signalled_witness :
  exists c' fx,
    run calm hello 4242 (start 4242 true)
      ([KillReq 1; KillReq 2] ++ WaitDone None :: [KillReq 3]) = Some (c', fx)
    /\ dones fx
       = option_list (pending (over (start 4242 true)) (stops [KillReq 1; KillReq 2]))
         ++ stops [KillReq 3].
Proof.
  eexists _, _. split; [|eapply (waiters_signalled calm hello 4242 (start 4242 true)
                                   [KillReq 1; KillReq 2] [KillReq 3] None)];
    vm_compute; reflexivity.
Defined.

(** X18. No waiter is signalled before the wait of the child has returned:
    while the loop still waits for the child, whatever kill requests and
    other events it takes, it signals nothing and keeps the latest kill
    request pending. *)
Theorem no_waiter_before_wait (w : World) (p : Plugin) (pid : Z) (c : ctrl)
    (evs : list event) (c' : ctrl) (fx : list effect) :
  waitCh c = true -> (forall e, ~ In (WaitDone e) evs) ->
  run w p pid c evs = Some (c', fx) ->
  dones fx = [] /\ waitCh c' = true /\ over c' = pending (over c) (stops evs).
Proof. apply run_before_wait. Qed.

Lemma no_waiter_before_wait_witness :
  exists c' fx,
    run calm hello 4242 serving [KillReq 1; Line "bye"; KillReq 2] = Some (c', fx)
    /\ dones fx = [] /\ waitCh c' = true
    /\ over c' = pending (over serving) (stops [KillReq 1; Line "bye"; KillReq 2]).
Proof.
  eexists _, _. split; [|eapply (no_waiter_before_wait calm hello 4242 serving
                                    [KillReq 1; Line "bye"; KillReq 2])].
  - vm_compute. reflexivity.
  - reflexivity.
  - intros e0 [H|[H|[H|[]]]]; discriminate H.
  - vm_compute. reflexivity.
Defined.

End LoopFacts.
